(** * PyCodeJam: the tokenizer, the case driver and the output formatter

    A shallow embedding of [code_jam.py] (class [Tokens], [print_code_jam],
    [generator_solve_code_jam], [solve_code_jam]) and the properties of
    its token stream, its counted driver and its "Case #k:" formatter.

    Conventions of the embedding.
    - A Python [str] is a [list ascii]; the library opens its files with
      [encoding='ascii'], so a character is a code point below 256.
    - A Python [int] is a [Z].
    - A call that may raise returns a [result]; a method that also moves the
      cursor of an object is a function of that object's state, in the
      state-and-exception monad [M].
    - A generator object is a resumption ([gen]): each [next] is given the
      current state of the objects the generator closes over, so that pulls
      may be interleaved with other operations on the same objects.
    - Generators follow PEP 479 (Python 3.7 and later): a [StopIteration]
      that escapes a generator body reaches the consumer as a
      [RuntimeError]. *)

From Stdlib Require Import String.
From Stdlib Require Import List Ascii ZArith NArith Arith Bool Lia.
From Stdlib Require Decimal DecimalPos.
Import ListNotations.

Set Implicit Arguments.
Local Open Scope list_scope.

(* ================================================================= *)
(** ** Strings and characters *)

Definition str := list ascii.

(** A string literal as a Python [str]. *)
Definition s_ (x : String.string) : str := String.list_ascii_of_string x.

Definition LF : ascii := ascii_of_nat 10.

(** [str.isspace] on one character, for code points below 256: TAB, LF, VT,
    FF, CR, the separators FS GS RS US, SPACE, NEL and NBSP. *)
Definition isspace (c : ascii) : bool :=
  let n := N_of_ascii c in
  ((9 <=? n) && (n <=? 13) || (28 <=? n) && (n <=? 32)
   || (n =? 133) || (n =? 160))%N.

(** [s.split()] with no separator: the runs of characters between
    whitespace, empty strings dropped. *)
Fixpoint split (s : str) : list str :=
  match s with
  | [] => []
  | c :: s' =>
      if isspace c then split s'
      else match s' with
           | [] => [[c]]
           | d :: _ =>
               if isspace d then [c] :: split s'
               else match split s' with
                    | t :: ts => (c :: t) :: ts
                    | [] => [[c]]
                    end
           end
  end.

(** Iterating a text file object: the lines of the character stream, each
    with its terminating newline (the last line may lack one). *)
Fixpoint readlines (s : str) : list str :=
  match s with
  | [] => []
  | c :: s' =>
      if Ascii.eqb c LF then [c] :: readlines s'
      else match readlines s' with
           | l :: ls => (c :: l) :: ls
           | [] => [[c]]
           end
  end.

(** [s.strip()], as [int] applies it to its argument. *)
Fixpoint lstrip (s : str) : str :=
  match s with
  | c :: s' => if isspace c then lstrip s' else s
  | [] => []
  end.

Definition strip (s : str) : str := rev (lstrip (rev (lstrip s))).

(* ================================================================= *)
(** ** Exceptions and the state-and-exception monad *)

(** The exceptions that occur in the library's control flow.  The
    specification calls [StopIteration] out of a token read
    ExhaustedInputError, the [ValueError] of a converter ParseError and
    [BrokenPipeError] UnusableSinkError. *)
Inductive exn : Type :=
| StopIteration
| ValueError
| RuntimeError
| BrokenPipeError.

Inductive result (A : Type) : Type :=
| Ok (a : A)
| Err (e : exn).
Arguments Ok {A} a.
Arguments Err {A} e.

(** A computation on an object of state [W] that returns an [A] or raises. *)
Definition M (W A : Type) : Type := W -> result A * W.

Definition ret {W A} (a : A) : M W A := fun w => (Ok a, w).
Definition raise {W A} (e : exn) : M W A := fun w => (Err e, w).
Definition bind {W A B} (m : M W A) (k : A -> M W B) : M W B :=
  fun w => match m w with
           | (Ok a, w') => k a w'
           | (Err e, w') => (Err e, w')
           end.

Declare Scope py_scope.
Delimit Scope py_scope with py.
Notation "x <- m ;; k" := (bind m (fun x => k))
  (at level 61, m at next level, right associativity) : py_scope.
Notation "m ;;; k" := (bind m (fun _ => k))
  (at level 61, right associativity) : py_scope.

(* ================================================================= *)
(** ** The builtins [int] and [str] on integers *)

Definition digit_val (c : ascii) : option Z :=
  let n := N_of_ascii c in
  if ((48 <=? n) && (n <=? 57))%N then Some (Z.of_N (n - 48)) else None.

Definition underscore : ascii := ascii_of_nat 95.
Definition plus_sign : ascii := ascii_of_nat 43.
Definition minus_sign : ascii := ascii_of_nat 45.

(** Decimal digits, a single underscore allowed between two digits.
    [prev] tells whether the previous character was a digit. *)
Fixpoint parse_digits (acc : Z) (prev : bool) (s : str) : option Z :=
  match s with
  | [] => if prev then Some acc else None
  | c :: s' =>
      match digit_val c with
      | Some d => parse_digits (10 * acc + d) true s'
      | None =>
          if Ascii.eqb c underscore && prev then parse_digits acc false s'
          else None
      end
  end.

(** [int(s)] in base 10: surrounding whitespace stripped, an optional sign,
    then digits.  Anything else raises [ValueError].  (The interpreter's
    configurable limit on the number of digits is taken as disabled.) *)
Definition py_int (s : str) : result Z :=
  let body :=
    match strip s with
    | c :: r =>
        if Ascii.eqb c minus_sign then option_map Z.opp (parse_digits 0 false r)
        else if Ascii.eqb c plus_sign then parse_digits 0 false r
        else parse_digits 0 false (c :: r)
    | [] => None
    end in
  match body with
  | Some z => Ok z
  | None => Err ValueError
  end.

Definition digit_char (n : nat) : ascii := ascii_of_nat (48 + n).

Fixpoint uint_chars (d : Decimal.uint) : str :=
  match d with
  | Decimal.Nil => []
  | Decimal.D0 d => digit_char 0 :: uint_chars d
  | Decimal.D1 d => digit_char 1 :: uint_chars d
  | Decimal.D2 d => digit_char 2 :: uint_chars d
  | Decimal.D3 d => digit_char 3 :: uint_chars d
  | Decimal.D4 d => digit_char 4 :: uint_chars d
  | Decimal.D5 d => digit_char 5 :: uint_chars d
  | Decimal.D6 d => digit_char 6 :: uint_chars d
  | Decimal.D7 d => digit_char 7 :: uint_chars d
  | Decimal.D8 d => digit_char 8 :: uint_chars d
  | Decimal.D9 d => digit_char 9 :: uint_chars d
  end.

(** [str(z)] for an [int]: its decimal representation. *)
Definition str_int (z : Z) : str :=
  match Z.to_int z with
  | Decimal.Pos d => uint_chars d
  | Decimal.Neg d => minus_sign :: uint_chars d
  end.

(** The [__str__] protocol that [print] and [str.format] rely on. *)
Class Str (A : Type) : Type := py_str : A -> str.

#[export] Instance Str_int : Str Z := str_int.
#[export] Instance Str_str : Str str := fun s => s.

(* ================================================================= *)
(** ** Generators *)

(** [next(g)] either yields a value and suspends, or returns (the consumer
    sees the end of the iteration), or raises.  [W] is the state of the
    objects the generator closes over; it is handed in at every [next]. *)
Inductive gen (W A : Type) : Type :=
| Gen (resume : W -> step W A)
with step (W A : Type) : Type :=
| Yield (a : A) (w : W) (g : gen W A)
| Return (w : W)
| Raise (e : exn) (w : W).
Arguments Return {W A} w.
Arguments Raise {W A} e w.

Definition resume {W A} (g : gen W A) : W -> step W A :=
  match g with Gen f => f end.

(** PEP 479: what the consumer sees when [e] escapes a generator body. *)
Definition generator_raise (e : exn) : exn :=
  match e with
  | StopIteration => RuntimeError
  | _ => e
  end.

(** The generator body [for _ in range(k): yield body()]. *)
Fixpoint range_loop {W A} (k : nat) (body : M W A) : gen W A :=
  Gen (fun w =>
         match k with
         | O => Return w
         | S k' =>
             match body w with
             | (Ok a, w') => Yield a w' (range_loop k' body)
             | (Err e, w') => Raise (generator_raise e) w'
             end
         end).

(** A generator that has finished. *)
Definition closed {W A} : gen W A := Gen (fun w => Return w).

(** Iterating a list. *)
Fixpoint iter_list {W A} (l : list A) : gen W A :=
  Gen (fun w =>
         match l with
         | [] => Return w
         | a :: l' => Yield a w (iter_list l')
         end).

(** Consuming a generator to its end, as [list(g)] or a [for] loop does:
    the values yielded, how the iteration ended, and the final state. *)
Fixpoint drain {W A} (g : gen W A) (w : W) : list A * result unit * W :=
  match g with
  | Gen f =>
      match f w with
      | Yield a w' g' =>
          let '(l, r, w'') := drain g' w' in (a :: l, r, w'')
      | Return w' => ([], Ok tt, w')
      | Raise e w' => ([], Err e, w')
      end
  end.

(* ================================================================= *)
(** ** class Tokens *)

(** [Tokens.tokenize(istr)], as the sequence of everything it yields:
    [for line in istr: for token in line.split(): yield token]. *)
Fixpoint tokenize (istr : list str) : list str :=
  match istr with
  | [] => []
  | line :: rest => split line ++ tokenize rest
  end.

(** A [Tokens] object is its suspended [tokenize] generator: the tokens of
    the current line not yet yielded, and the lines not yet read. *)
Record Tokens : Type := mkTokens {
  pending : list str;
  istr : list str
}.

(** [Tokens.__init__]: the generator is created, nothing is read yet. *)
Definition Tokens_init (stream : list str) : Tokens := mkTokens [] stream.

(** Resuming [tokenize] when the current line is used up: read lines until
    one has a token. *)
Fixpoint tokenize_refill (lines : list str) : option (str * Tokens) :=
  match lines with
  | [] => None
  | line :: rest =>
      match split line with
      | token :: more => Some (token, mkTokens more rest)
      | [] => tokenize_refill rest
      end
  end.

(** [next(self.tokens)]; [Tokens.__iter__] hands out this same generator,
    so this is also one step of iterating the [Tokens] object itself. *)
Definition tokens_next : M Tokens str :=
  fun self =>
    match pending self with
    | token :: more => (Ok token, mkTokens more (istr self))
    | [] =>
        match tokenize_refill (istr self) with
        | Some (token, self') => (Ok token, self')
        | None => (Err StopIteration, mkTokens [] [])
        end
    end.

(** The tokens a [Tokens] object has yet to deliver. *)
Definition remaining (self : Tokens) : list str :=
  pending self ++ tokenize (istr self).

(** Calling a converter [t] (such as [int]) on a token; it may raise. *)
Definition call {W A B} (t : A -> result B) (a : A) : M W B :=
  fun w => (t a, w).

(** [Tokens.next_token]: [return t(next(self.tokens))]. *)
Definition next_token {A} (t : str -> result A) : M Tokens A :=
  (token <- tokens_next ;; call t token)%py.

(** [Tokens.next_many_tokens]:
    [for _ in range(n): yield self.next_token(t)]. *)
Definition next_many_tokens {A} (n : Z) (t : str -> result A) : gen Tokens A :=
  range_loop (Z.to_nat n) (next_token t).

(** [Tokens.next_counted_tokens]:
    [return self.next_many_tokens(self.next_token(int), t)].  The count is
    read by the call itself; the generator it returns has read nothing. *)
Definition next_counted_tokens {A} (t : str -> result A)
  : M Tokens (gen Tokens A) :=
  (n <- next_token py_int ;; ret (next_many_tokens n t))%py.

(* ================================================================= *)
(** ** Output files *)

(** What [print] needs of [file]: [write] and [flush]. *)
Class FileLike (F : Type) : Type := {
  write : str -> M F unit;
  flush : M F unit
}.

(** A block-buffered text file on a pipe.  [write] fills the buffer;
    [flush] hands the buffer to the reader as one chunk.  [reader] is the
    number of chunks the reader still accepts before it goes away, [None]
    for a reader that never does. *)
Record TextFile : Type := mkTextFile {
  buffer : str;
  delivered : list str;
  reader : option nat
}.

Definition TextFile_write (s : str) : M TextFile unit :=
  fun f => (Ok tt, mkTextFile (buffer f ++ s) (delivered f) (reader f)).

Definition TextFile_flush : M TextFile unit :=
  fun f =>
    match buffer f with
    | [] => (Ok tt, f)
    | _ :: _ =>
        match reader f with
        | Some O => (Err BrokenPipeError, f)
        | Some (S k) =>
            (Ok tt, mkTextFile [] (delivered f ++ [buffer f]) (Some k))
        | None => (Ok tt, mkTextFile [] (delivered f ++ [buffer f]) None)
        end
    end.

#[export] Instance TextFile_FileLike : FileLike TextFile :=
  {| write := TextFile_write; flush := TextFile_flush |}.

(** A fresh file whose reader accepts [r]. *)
Definition TextFile_open (r : option nat) : TextFile := mkTextFile [] [] r.

(** An unbuffered (write-through) file on a pipe: every [write] goes to the
    reader at once.  [writes_left] is the number of writes the reader still
    accepts. *)
Record RawPipe : Type := mkRawPipe {
  received : str;
  writes_left : nat
}.

Definition RawPipe_write (s : str) : M RawPipe unit :=
  fun f =>
    match s with
    | [] => (Ok tt, f)
    | _ :: _ =>
        match writes_left f with
        | O => (Err BrokenPipeError, f)
        | S k => (Ok tt, mkRawPipe (received f ++ s) k)
        end
    end.

Definition RawPipe_flush : M RawPipe unit := ret tt.

#[export] Instance RawPipe_FileLike : FileLike RawPipe :=
  {| write := RawPipe_write; flush := RawPipe_flush |}.

(** The builtin [print] with keywords [sep], [file] and [flush], its objects
    already converted by [str]: the objects with [sep] between them, then
    the end of line, each by a [write] of its own; then [flush]. *)
Fixpoint print_objects {F} `{FileLike F} (first : bool) (objects : list str)
  (sep : str) : M F unit :=
  match objects with
  | [] => ret tt
  | o :: os =>
      ((if first then ret tt else write sep) ;;;
       write o ;;;
       print_objects false os sep)%py
  end.

Definition print {F} `{FileLike F} (objects : list str) (sep : str)
  (do_flush : bool) : M F unit :=
  (print_objects true objects sep ;;;
   write [LF] ;;;
   if do_flush then flush else ret tt)%py.

(* ================================================================= *)
(** ** print_code_jam, generator_solve_code_jam, solve_code_jam *)

(** The disposition of SIGPIPE; the interpreter starts with it ignored. *)
Inductive handler : Type := SIG_IGN | SIG_DFL.

(** What a run acts on: the objects the solution generator closes over,
    the output file, and the process's SIGPIPE disposition. *)
Record proc (W F : Type) : Type := mkProc {
  heap : W;
  ostr : F;
  sigpipe : handler
}.

(** [format_case = "Case #{}:".format] *)
Definition format_case (case : Z) : str :=
  s_ "Case #" ++ py_str case ++ s_ ":".

Definition SPACE : ascii := ascii_of_nat 32.

(** The loop of [print_code_jam]:
    [for case, solution in enumerate(solutions, 1):
         print(format_case(case), solution, sep=sep, file=ostr, flush=True)] *)
Fixpoint print_cases {W F A} `{FileLike F} `{Str A} (sep : str) (case : Z)
  (solutions : gen W A) (p : proc W F) : result unit * proc W F :=
  match solutions with
  | Gen f =>
      match f (heap p) with
      | Yield solution w g =>
          match print [format_case case; py_str solution] sep true (ostr p) with
          | (Ok _, o) => print_cases sep (case + 1) g (mkProc w o (sigpipe p))
          | (Err e, o) => (Err e, mkProc w o (sigpipe p))
          end
      | Return w => (Ok tt, mkProc w (ostr p) (sigpipe p))
      | Raise e w => (Err e, mkProc w (ostr p) (sigpipe p))
      end
  end.

(** [print_code_jam(solutions, ostr, insert_newline)]: the loop, inside
    [try: ... except BrokenPipeError: signal(SIGPIPE, SIG_DFL)]. *)
Definition print_code_jam {W F A} `{FileLike F} `{Str A}
  (solutions : gen W A) (insert_newline : bool) : M (proc W F) unit :=
  fun p =>
    let sep := if insert_newline then [LF] else [SPACE] in
    match print_cases sep 1 solutions p with
    | (Err BrokenPipeError, p') =>
        (Ok tt, mkProc (heap p') (ostr p') SIG_DFL)
    | other => other
    end.

(** [generator_solve_code_jam(solver, istr, ostr, insert_newline)]:
    [return print_code_jam(solver(Tokens(istr)), ostr, insert_newline)].
    [solver] is the generator that the generator function makes of the
    [Tokens] object it is given. *)
Definition generator_solve_code_jam {F A} `{FileLike F} `{Str A}
  (solver : gen Tokens A) (stream : list str) (out : F)
  (insert_newline : bool) : result unit * proc Tokens F :=
  print_code_jam solver insert_newline (mkProc (Tokens_init stream) out SIG_IGN).

(** The generator [solve] inside [solve_code_jam]:
    [for _ in range(tokens.next_token(int)): yield solver(tokens)].
    The count is read when the generator is first resumed. *)
Definition solve {A} (solver : M Tokens A) : gen Tokens A :=
  Gen (fun tokens =>
         match next_token py_int tokens with
         | (Ok n, tokens') => resume (range_loop (Z.to_nat n) solver) tokens'
         | (Err e, tokens') => Raise (generator_raise e) tokens'
         end).

(** [solve_code_jam(solver, istr, ostr, insert_newline)] *)
Definition solve_code_jam {F A} `{FileLike F} `{Str A}
  (solver : M Tokens A) (stream : list str) (out : F)
  (insert_newline : bool) : result unit * proc Tokens F :=
  generator_solve_code_jam (solve solver) stream out insert_newline.

(* ================================================================= *)
(** ** Clients of a Tokens object *)

(** A client holds one [Tokens] object and the generators that
    [next_many_tokens] and [next_counted_tokens] have returned to it, each
    with the converter it was made with.  It may interleave its reads in
    any order. *)
Section Client.
Variable A : Type.

Inductive value : Type :=
| VToken (token : str)          (* a raw token, from iteration *)
| VConv (a : A)                 (* a converted token *)
| VGen (g : nat).               (* the g-th generator handed out *)

Inductive op : Type :=
| Iterate                                   (* next(iter(tokens)) *)
| ReadOne (t : str -> result A)             (* tokens.next_token(t) *)
| ReadMany (n : Z) (t : str -> result A)    (* tokens.next_many_tokens(n, t) *)
| ReadCounted (t : str -> result A)         (* tokens.next_counted_tokens(t) *)
| Pull (g : nat).                           (* next(g), g handed out earlier *)

Record client : Type := mkClient {
  tokens : Tokens;
  gens : list ((str -> result A) * gen Tokens A)
}.

Definition client_init (stream : list str) : client :=
  mkClient (Tokens_init stream) [].

(** Replacing the [g]-th generator by its continuation. *)
Fixpoint set_gen (g : nat) (k : gen Tokens A)
  (l : list ((str -> result A) * gen Tokens A)) :=
  match l, g with
  | [], _ => []
  | (t, _) :: l', O => (t, k) :: l'
  | x :: l', S g' => x :: set_gen g' k l'
  end.

Definition do_op (c : op) (s : client) : result value * client :=
  match c with
  | Iterate =>
      match tokens_next (tokens s) with
      | (Ok token, self) => (Ok (VToken token), mkClient self (gens s))
      | (Err e, self) => (Err e, mkClient self (gens s))
      end
  | ReadOne t =>
      match next_token t (tokens s) with
      | (Ok a, self) => (Ok (VConv a), mkClient self (gens s))
      | (Err e, self) => (Err e, mkClient self (gens s))
      end
  | ReadMany n t =>
      (Ok (VGen (length (gens s))),
       mkClient (tokens s) (gens s ++ [(t, next_many_tokens n t)]))
  | ReadCounted t =>
      match next_counted_tokens t (tokens s) with
      | (Ok g, self) =>
          (Ok (VGen (length (gens s))), mkClient self (gens s ++ [(t, g)]))
      | (Err e, self) => (Err e, mkClient self (gens s))
      end
  | Pull g =>
      match nth_error (gens s) g with
      | Some (_, k) =>
          match resume k (tokens s) with
          | Yield a self k' => (Ok (VConv a), mkClient self (set_gen g k' (gens s)))
          | Return self => (Err StopIteration, mkClient self (set_gen g closed (gens s)))
          | Raise e self => (Err e, mkClient self (set_gen g closed (gens s)))
          end
      | None => (Err RuntimeError, s)   (* no such generator: nothing is read *)
      end
  end.

Fixpoint run (ops : list op) (s : client) : list (result value) * client :=
  match ops with
  | [] => ([], s)
  | c :: ops' =>
      let '(r, s') := do_op c s in
      let '(rs, s'') := run ops' s' in
      (r :: rs, s'')
  end.

Definition lift_result {B C} (f : B -> C) (r : result B) : result C :=
  match r with
  | Ok b => Ok (f b)
  | Err e => Err e
  end.

(** What operation [c], started in state [s], returns when the one token
    it takes from the stream is [token]; [None] for an operation that
    takes no token. *)
Definition delivery (c : op) (s : client) (token : str) : option (result value) :=
  match c with
  | Iterate => Some (Ok (VToken token))
  | ReadOne t => Some (lift_result VConv (t token))
  | ReadMany _ _ => None
  | ReadCounted _ =>
      Some (lift_result (fun _ => VGen (length (gens s))) (py_int token))
  | Pull g =>
      match nth_error (gens s) g with
      | Some (t, _) =>
          Some (match t token with
                | Ok a => Ok (VConv a)
                | Err e => Err (generator_raise e)
                end)
      | None => None
      end
  end.

(** What operation [c], started in state [s], returns when it takes no
    token: never a token or a value made of one.  Iteration and the typed
    reads find the stream exhausted; [next_many_tokens] only makes a
    generator; a pull finds its generator finished ([StopIteration]) or
    finds the stream exhausted under it ([RuntimeError]). *)
Definition idle (c : op) (s : client) (r : result value) : Prop :=
  match c with
  | Iterate | ReadOne _ | ReadCounted _ => r = Err StopIteration
  | ReadMany _ _ => r = Ok (VGen (length (gens s)))
  | Pull _ => r = Err StopIteration \/ r = Err RuntimeError
  end.

(** A result that hands a token, or a value made of one, to the caller. *)
Definition is_value (r : result value) : bool :=
  match r with
  | Ok (VToken _) | Ok (VConv _) => true
  | _ => false
  end.

(** [deliveries ops s taken]: running [ops] from [s] takes exactly the
    tokens [taken] from the stream, in this order.  Each operation either
    takes no token, and then returns no token or value ([idle]), or takes
    the next token of the stream, that one only, and returns what comes
    of it ([delivery]).  So the values handed out stand one to one, in
    order, for tokens of [taken]: no token is handed out twice and none
    out of turn. *)
Fixpoint deliveries (ops : list op) (s : client) (taken : list str) : Prop :=
  match ops with
  | [] => taken = []
  | c :: ops' =>
      let '(r, s') := do_op c s in
      (remaining (tokens s') = remaining (tokens s)
       /\ idle c s r
       /\ deliveries ops' s' taken)
      \/ (exists token taken',
             taken = token :: taken'
             /\ remaining (tokens s) = token :: remaining (tokens s')
             /\ delivery c s token = Some r
             /\ deliveries ops' s' taken')
  end.

(** Every generator a client holds is a suspended [next_many_tokens] loop
    over the client's own [Tokens] object, with the converter recorded
    for it. *)
Definition gens_ok (l : list ((str -> result A) * gen Tokens A)) : Prop :=
  Forall (fun tg => exists k, snd tg = range_loop k (next_token (fst tg))) l.

End Client.
Arguments Iterate {A}.
Arguments Pull {A} g.
Arguments VToken {A} token.
Arguments VGen {A} g.
Arguments client_init {A} stream.

(* ================================================================= *)
(** ** The specification's notions *)

Definition all_space (s : str) : Prop := Forall (fun c => isspace c = true) s.
Definition no_space (s : str) : Prop := Forall (fun c => isspace c = false) s.

(** The stream ends here or goes on with whitespace. *)
Definition at_gap (s : str) : Prop :=
  match s with
  | [] => True
  | c :: _ => isspace c = true
  end.

(** [max_runs s ts]: [ts] are the maximal runs of non-whitespace characters
    of [s], in the order of [s]. *)
Inductive max_runs : str -> list str -> Prop :=
| runs_none ws : all_space ws -> max_runs ws []
| runs_token ws t rest ts :
    all_space ws -> t <> [] -> no_space t -> at_gap rest ->
    max_runs rest ts ->
    max_runs (ws ++ t ++ rest) (t :: ts).

(** A list of chunks whose boundaries fall after whitespace. *)
Fixpoint breaks_at_space (ls : list str) : Prop :=
  match ls with
  | [] => True
  | l :: ls' =>
      (ls' = [] \/ exists l' c, l = l' ++ [c] /\ isspace c = true)
      /\ breaks_at_space ls'
  end.

(** Splitting a text into its lines, the newlines removed. *)
Fixpoint lines (s : str) : list str :=
  match s with
  | [] => []
  | c :: s' =>
      if Ascii.eqb c LF then [] :: lines s'
      else match lines s' with
           | l :: ls => (c :: l) :: ls
           | [] => [[c]]
           end
  end.

(** The line [Case #k: value]. *)
Definition case_line {A} `{Str A} (k : Z) (v : A) : str :=
  s_ "Case #" ++ py_str k ++ s_ ": " ++ py_str v.

(** The lines of the cases [k], [k+1], ... *)
Fixpoint case_lines {A} `{Str A} (k : Z) (vs : list A) : list str :=
  match vs with
  | [] => []
  | v :: vs' => case_line k v :: case_lines (k + 1) vs'
  end.

(** What one [print] of [print_code_jam] writes for case [k]. *)
Definition case_text {A} `{Str A} (sep : str) (k : Z) (v : A) : str :=
  format_case k ++ sep ++ py_str v ++ [LF].

Fixpoint case_texts {A} `{Str A} (sep : str) (k : Z) (vs : list A) : list str :=
  match vs with
  | [] => []
  | v :: vs' => case_text sep k v :: case_texts sep (k + 1) vs'
  end.

(** What fully consuming [next_many_tokens] does to a list of tokens: the
    values, how the iteration ends, and the tokens left. *)
Fixpoint read_many {A} (k : nat) (t : str -> result A) (toks : list str)
  : list A * result unit * list str :=
  match k with
  | O => ([], Ok tt, toks)
  | S k' =>
      match toks with
      | [] => ([], Err RuntimeError, [])
      | tok :: rest =>
          match t tok with
          | Ok a => let '(l, r, rest') := read_many k' t rest in (a :: l, r, rest')
          | Err e => ([], Err (generator_raise e), rest)
          end
      end
  end.

(* ================================================================= *)
(** ** Two solvers *)

(** Reads two integers and returns their sum. *)
Definition sum_solver : M Tokens Z :=
  (a <- next_token py_int ;; b <- next_token py_int ;; ret (a + b)%Z)%py.

(** Reads one integer and returns it. *)
Definition echo_solver : M Tokens Z := next_token py_int.

(** The input of the worked example: [3], then three lines of two integers. *)
Definition example_input : str :=
  s_ "3" ++ [LF] ++ s_ "1 2" ++ [LF] ++ s_ "3 4" ++ [LF] ++ s_ "5 6" ++ [LF].

(* ================================================================= *)
(** ** Further notions *)

(** [t] is a contiguous part of [l]. *)
Definition part_of (t l : str) : Prop := exists pre post, l = pre ++ t ++ post.

(** The tokens in the text of the cases [k], [k+1], ...: "Case", "#k:" and
    the value. *)
Fixpoint case_tokens {A} `{Str A} (k : Z) (vs : list A) : list str :=
  match vs with
  | [] => []
  | v :: vs' =>
      s_ "Case" :: (s_ "#" ++ py_str k ++ s_ ":") :: py_str v
        :: case_tokens (k + 1) vs'
  end.

(** The lines of the cases [k], [k+1], ... when the value goes on a line of
    its own: "Case #k:", then the value. *)
Fixpoint case_line_pairs {A} `{Str A} (k : Z) (vs : list A) : list str :=
  match vs with
  | [] => []
  | v :: vs' =>
      (s_ "Case #" ++ py_str k ++ s_ ":") :: py_str v
        :: case_line_pairs (k + 1) vs'
  end.

(** The interpreter's default limit on the digits of an integer that is
    converted from or to a decimal string; [int] and [str] raise
    [ValueError] beyond it. *)
Definition max_str_digits : Z := 4300.

(** [z] has at most [max_str_digits] decimal digits. *)
Definition within_str_digits (z : Z) : Prop :=
  (Z.abs z < 10 ^ max_str_digits)%Z.

(** An input written with [str]: the number of values on the first line,
    then one value per line. *)
Definition echo_input (vs : list Z) : list str :=
  (str_int (Z.of_nat (length vs)) ++ [LF])
    :: map (fun v => str_int v ++ [LF]) vs.

(* ================================================================= *)
(** * Properties *)

Unset Implicit Arguments.

(** ** Splitting on whitespace *)

Lemma isspace_LF : isspace LF = true.
Proof. reflexivity. Qed.

Lemma split_head_nonspace c s : isspace c = false -> split (c :: s) <> [].
Proof.
  intros Hc. simpl. rewrite Hc.
  destruct s as [|d s']; [discriminate|].
  destruct (isspace d); [discriminate|].
  destruct (split (d :: s')); discriminate.
Qed.

(** Unfolding [split] at a non-space character followed by another. *)
Lemma split_cons_cons c d s :
  isspace c = false -> isspace d = false ->
  split (c :: d :: s) =
  match split (d :: s) with
  | t :: ts => (c :: t) :: ts
  | [] => [[c]]
  end.
Proof. intros Hc Hd. cbn [split]. rewrite Hc, Hd. reflexivity. Qed.

Lemma split_cons_space c s : isspace c = true -> split (c :: s) = split s.
Proof. intros Hc. cbn [split]. rewrite Hc. reflexivity. Qed.

Lemma split_cons_gap c s :
  isspace c = false -> at_gap s -> split (c :: s) = [c] :: split s.
Proof.
  intros Hc Hs. destruct s as [|d s'].
  - cbn. rewrite Hc. reflexivity.
  - cbn in Hs. cbn [split]. rewrite Hc, Hs. reflexivity.
Qed.

(** A whitespace character between two parts splits them independently. *)
Lemma split_app_space a c b :
  isspace c = true -> split (a ++ c :: b) = split a ++ split b.
Proof.
  intros Hc. induction a as [|x a IH].
  - cbn [app]. now rewrite split_cons_space.
  - destruct (isspace x) eqn:Hx.
    + cbn [app]. rewrite !split_cons_space by assumption. exact IH.
    + destruct a as [|d a'].
      * cbn [app]. rewrite split_cons_gap by (cbn; assumption).
        rewrite split_cons_space by assumption.
        rewrite split_cons_gap by (cbn; trivial). reflexivity.
      * destruct (isspace d) eqn:Hd.
        -- cbn [app] in *.
           rewrite (split_cons_gap x (d :: a' ++ c :: b)) by (cbn; assumption).
           rewrite IH.
           rewrite (split_cons_gap x (d :: a')) by (cbn; assumption).
           reflexivity.
        -- cbn [app] in *. rewrite !split_cons_cons by assumption.
           rewrite IH.
           destruct (split (d :: a')) as [|t ts] eqn:E.
           ++ exfalso. revert E. now apply split_head_nonspace.
           ++ reflexivity.
Qed.

Lemma split_all_space ws : all_space ws -> split ws = [].
Proof.
  induction 1 as [|c ws Hc _ IH]; [reflexivity|].
  now rewrite split_cons_space.
Qed.

Lemma split_skip_space ws s : all_space ws -> split (ws ++ s) = split s.
Proof.
  induction 1 as [|c ws Hc _ IH]; [reflexivity|].
  cbn [app]. now rewrite split_cons_space.
Qed.

Lemma split_run t rest :
  t <> [] -> no_space t -> at_gap rest -> split (t ++ rest) = t :: split rest.
Proof.
  intros Hne Ht Hgap. induction Ht as [|c t Hc Ht IH]; [congruence|].
  destruct t as [|d t'].
  - cbn [app]. now apply split_cons_gap.
  - cbn [app] in *. inversion Ht as [|? ? Hd _]; subst.
    rewrite split_cons_cons by assumption.
    rewrite IH by discriminate. reflexivity.
Qed.

(** ** The specification's runs are what [split] computes *)

Lemma max_runs_unique s ts : max_runs s ts -> ts = split s.
Proof.
  induction 1 as [ws Hws | ws t rest ts Hws Hne Ht Hgap _ IH].
  - symmetry. now apply split_all_space.
  - rewrite split_skip_space by assumption.
    rewrite split_run by assumption. now rewrite IH.
Qed.

Lemma max_runs_cons_space c s ts :
  isspace c = true -> max_runs s ts -> max_runs (c :: s) ts.
Proof.
  intros Hc H. destruct H as [ws Hws | ws t rest ts Hws Hne Ht Hgap Hrest].
  - apply runs_none. now constructor.
  - change (c :: ws ++ t ++ rest) with ((c :: ws) ++ t ++ rest).
    apply runs_token; trivial. now constructor.
Qed.

Lemma max_runs_head_nonspace d s ts :
  isspace d = false -> max_runs (d :: s) ts ->
  exists t rest ts',
    ts = t :: ts' /\ d :: s = t ++ rest /\ t <> [] /\ no_space t
    /\ at_gap rest /\ max_runs rest ts'.
Proof.
  intros Hd H. remember (d :: s) as x eqn:Ex.
  destruct H as [ws Hws | ws t rest ts Hws Hne Ht Hgap Hrest].
  - subst ws. inversion Hws; congruence.
  - destruct ws as [|w ws'].
    + exists t, rest, ts. cbn [app]. auto 10.
    + cbn [app] in Ex. inversion Ex; subst. inversion Hws; congruence.
Qed.

Lemma max_runs_split s : max_runs s (split s).
Proof.
  induction s as [|c s IH].
  - apply runs_none. constructor.
  - destruct (isspace c) eqn:Hc.
    + rewrite split_cons_space by assumption. now apply max_runs_cons_space.
    + destruct s as [|d s'].
      * cbn. rewrite Hc.
        apply (runs_token (ws := []) (t := [c]) (rest := [])); try constructor;
          try discriminate; trivial; constructor.
      * destruct (isspace d) eqn:Hd.
        -- rewrite split_cons_gap by (cbn; assumption).
           apply (runs_token (ws := []) (t := [c]) (rest := d :: s'));
             try constructor; try discriminate; trivial.
        -- rewrite split_cons_cons by assumption.
           destruct (max_runs_head_nonspace _ _ _ Hd IH)
             as (t & rest & ts' & E & Es & Hne & Ht & Hgap & Hrest).
           rewrite E, Es.
           change (c :: t ++ rest) with ([] ++ (c :: t) ++ rest).
           apply runs_token; trivial; try constructor; try discriminate;
             trivial.
Qed.

Lemma max_runs_tokens s ts :
  max_runs s ts -> Forall (fun t => t <> [] /\ no_space t) ts.
Proof. induction 1; constructor; auto. Qed.

(** ** Reading by lines *)

Lemma tokenize_chunks ls :
  breaks_at_space ls -> tokenize ls = split (concat ls).
Proof.
  induction ls as [|l ls IH]; [reflexivity|].
  intros [Hl Hls]. cbn [tokenize concat]. rewrite IH by assumption.
  destruct Hl as [-> | (l' & c & -> & Hc)].
  - cbn. now rewrite !app_nil_r.
  - rewrite <- app_assoc. cbn [app]. rewrite split_app_space by assumption.
    change (l' ++ [c]) with (l' ++ c :: []).
    rewrite split_app_space by assumption. cbn. now rewrite app_nil_r.
Qed.

Lemma concat_readlines s : concat (readlines s) = s.
Proof.
  induction s as [|c s IH]; [reflexivity|].
  cbn [readlines]. destruct (Ascii.eqb c LF).
  - cbn. now rewrite IH.
  - destruct (readlines s) as [|l ls]; cbn in *; now rewrite <- IH.
Qed.

Lemma readlines_breaks s : breaks_at_space (readlines s).
Proof.
  induction s as [|c s IH]; [exact I|].
  cbn [readlines]. destruct (Ascii.eqb c LF) eqn:E.
  - apply Ascii.eqb_eq in E. subst c. split; [|assumption].
    right. exists [], LF. split; reflexivity.
  - destruct (readlines s) as [|l ls]; [cbn; auto|].
    destruct IH as [Hl Hls]. split; [|assumption].
    destruct Hl as [-> | (l' & d & -> & Hd)]; [now left|].
    right. exists (c :: l'), d. split; [reflexivity|assumption].
Qed.

Lemma tokenize_readlines s : tokenize (readlines s) = split s.
Proof.
  rewrite tokenize_chunks by apply readlines_breaks.
  now rewrite concat_readlines.
Qed.

(** ** The token cursor *)

Lemma remaining_init stream : remaining (Tokens_init stream) = tokenize stream.
Proof. reflexivity. Qed.

Lemma tokenize_refill_none ls :
  tokenize ls = [] -> tokenize_refill ls = None.
Proof.
  induction ls as [|l ls IH]; [reflexivity|].
  cbn [tokenize tokenize_refill]. intros E.
  apply app_eq_nil in E as [E1 E2]. rewrite E1. auto.
Qed.

Lemma tokenize_refill_some ls tok rest :
  tokenize ls = tok :: rest ->
  exists self, tokenize_refill ls = Some (tok, self) /\ remaining self = rest.
Proof.
  induction ls as [|l ls IH]; [discriminate|].
  cbn [tokenize tokenize_refill]. intros E.
  destruct (split l) as [|t more].
  - cbn [app] in E. auto.
  - cbn [app] in E. inversion E; subst.
    eexists. split; reflexivity.
Qed.

(** [next(self.tokens)] hands out the first remaining token and keeps the
    rest. *)
Lemma tokens_next_some self tok rest :
  remaining self = tok :: rest ->
  exists self', tokens_next self = (Ok tok, self') /\ remaining self' = rest.
Proof.
  unfold remaining, tokens_next. destruct self as [p ls]. cbn [pending istr].
  destruct p as [|t more]; cbn [app]; intros E.
  - destruct (tokenize_refill_some _ _ _ E) as (self' & -> & Hr).
    exists self'. auto.
  - inversion E; subst. eexists. split; reflexivity.
Qed.

Lemma tokens_next_none self :
  remaining self = [] ->
  tokens_next self = (Err StopIteration, mkTokens [] []).
Proof.
  unfold remaining, tokens_next. destruct self as [p ls]. cbn [pending istr].
  intros E. apply app_eq_nil in E as [-> E].
  now rewrite tokenize_refill_none.
Qed.

Lemma next_token_some {A} (t : str -> result A) self tok rest :
  remaining self = tok :: rest ->
  exists self', next_token t self = (t tok, self') /\ remaining self' = rest.
Proof.
  intros E. destruct (tokens_next_some _ _ _ E) as (self' & E' & Hr).
  exists self'. split; [|assumption].
  unfold next_token, bind, call. rewrite E'. reflexivity.
Qed.

Lemma next_token_none {A} (t : str -> result A) self :
  remaining self = [] ->
  next_token t self = (Err StopIteration, mkTokens [] []).
Proof.
  intros E. unfold next_token, bind. now rewrite tokens_next_none.
Qed.

(** ** Generators *)

(** Induction on a generator: the continuation after a yield is smaller. *)
Lemma gen_induction {W A} (P : gen W A -> Prop) :
  (forall f,
      (forall w, match f w with Yield _ _ g => P g | _ => True end) ->
      P (Gen f)) ->
  forall g, P g.
Proof.
  intros H. fix IH 1. intros [f]. apply H. intros w.
  destruct (f w) as [a w' g| |]; [apply IH | exact I | exact I].
Qed.

Lemma drain_iter_list {W A} (l : list A) (w : W) :
  drain (iter_list l) w = (l, Ok tt, w).
Proof.
  induction l as [|a l IH]; [reflexivity|].
  cbn. cbn in IH. now rewrite IH.
Qed.

(** Draining a [range] loop over the token cursor is [read_many] on the
    remaining tokens. *)
Lemma drain_next_many {A} (t : str -> result A) k : forall self,
  exists self',
    drain (range_loop k (next_token t)) self
    = (fst (fst (read_many k t (remaining self))),
       snd (fst (read_many k t (remaining self))), self')
    /\ remaining self' = snd (read_many k t (remaining self)).
Proof.
  induction k as [|k IH]; intros self.
  - exists self. split; reflexivity.
  - cbn [range_loop drain read_many].
    destruct (remaining self) as [|tok rest] eqn:E.
    + rewrite (next_token_none t _ E). cbn. eexists. split; reflexivity.
    + destruct (next_token_some t _ _ _ E) as (self1 & -> & Hr).
      destruct (t tok) as [a|e].
      * destruct (IH self1) as (self' & Hd & Hr').
        fold (range_loop (W := Tokens) (A := A)).
        change (Gen _) with (range_loop k (next_token t)).
        rewrite Hr in Hd, Hr'. rewrite Hd. exists self'.
        destruct (read_many k t rest) as [[l r] rest']. cbn in *. auto.
      * cbn. exists self1. auto.
Qed.

Lemma read_many_all {A} (t : str -> result A) toks vs rest :
  Forall2 (fun tok v => t tok = Ok v) toks vs ->
  read_many (length toks) t (toks ++ rest) = (vs, Ok tt, rest).
Proof.
  induction 1 as [|tok v toks vs Hv _ IH]; [reflexivity|].
  cbn. now rewrite Hv, IH.
Qed.

Lemma read_many_short {A} (t : str -> result A) toks vs k :
  Forall2 (fun tok v => t tok = Ok v) toks vs ->
  length toks < k ->
  read_many k t toks = (vs, Err RuntimeError, []).
Proof.
  intros H. revert k. induction H as [|tok v toks vs Hv _ IH]; intros k Hk.
  - destruct k; [lia|reflexivity].
  - destruct k; [cbn in Hk; lia|]. cbn in *. rewrite Hv, IH by lia. reflexivity.
Qed.

Lemma drain_resume {W A} (g : gen W A) w :
  drain g w =
  match resume g w with
  | Yield a w' g' => let '(l, r, w'') := drain g' w' in (a :: l, r, w'')
  | Return w' => ([], Ok tt, w')
  | Raise e w' => ([], Err e, w')
  end.
Proof. destruct g; reflexivity. Qed.

(** Draining [solve]: the count is read, then the solver runs that many
    times. *)
Lemma drain_solve {A} (solver : M Tokens A) self :
  drain (solve solver) self =
  match next_token py_int self with
  | (Ok n, self') => drain (range_loop (Z.to_nat n) solver) self'
  | (Err e, self') => ([], Err (generator_raise e), self')
  end.
Proof.
  cbn [solve drain]. destruct (next_token py_int self) as [[n|e] self'].
  - now rewrite <- drain_resume.
  - reflexivity.
Qed.

(** ** Printing to a buffered text file *)

Section Printing.
Context {A : Type} `{Str A}.

Lemma case_text_cons (sep : str) (k : Z) (v : A) :
  exists c y, case_text sep k v = c :: y.
Proof. unfold case_text, format_case. cbn. eauto. Qed.

(** One [print] with [flush=True] on an empty buffer: the whole text of
    the case goes to the reader as one chunk, or, when the reader is
    gone, stays in the buffer. *)
Lemma print_case_TextFile (sep : str) (k : Z) (v : A) d r :
  print [format_case k; py_str v] sep true (mkTextFile [] d r) =
  match r with
  | Some O => (Err BrokenPipeError, mkTextFile (case_text sep k v) d r)
  | Some (S j) => (Ok tt, mkTextFile [] (d ++ [case_text sep k v]) (Some j))
  | None => (Ok tt, mkTextFile [] (d ++ [case_text sep k v]) None)
  end.
Proof.
  unfold print, print_objects, bind, ret. cbn [write flush TextFile_FileLike].
  unfold TextFile_write, TextFile_flush.
  cbn [buffer delivered reader app].
  match goal with
  | |- context [match ?b with [] => _ | _ :: _ => _ end] =>
      assert (E : b = case_text sep k v)
        by (unfold case_text; now rewrite <- !app_assoc);
      rewrite !E
  end.
  destruct (case_text_cons sep k v) as (c & y & Ec). rewrite Ec at 1.
  destruct r as [[|j]|]; reflexivity.
Qed.

(** The loop on a file whose reader stays: every solution the generator
    yields is delivered as its own chunk. *)
Lemma print_cases_TextFile {W} (sep : str) (g : gen W A) :
  forall k w d sig,
    print_cases sep k g (mkProc w (mkTextFile [] d None) sig) =
    let '(vs, r, w') := drain g w in
    (r, mkProc w' (mkTextFile [] (d ++ case_texts sep k vs) None) sig).
Proof.
  induction g as [f IH] using gen_induction. intros k w d sig.
  cbn [print_cases drain heap ostr sigpipe]. specialize (IH w).
  destruct (f w) as [v w1 g1| w1 | e w1].
  - rewrite print_case_TextFile. rewrite IH.
    destruct (drain g1 w1) as [[vs r] w']. cbn [case_texts].
    now rewrite <- app_assoc.
  - cbn. now rewrite app_nil_r.
  - cbn. now rewrite app_nil_r.
Qed.

(** The loop on a file whose reader leaves after [j] chunks, when the
    generator has more than [j] solutions to give. *)
Lemma print_cases_reader_gone {W} (sep : str) (g : gen W A) :
  forall j k w d sig vs r w',
    drain g w = (vs, r, w') ->
    j < length vs ->
    exists v w1,
      nth_error vs j = Some v /\
      print_cases sep k g (mkProc w (mkTextFile [] d (Some j)) sig) =
      (Err BrokenPipeError,
       mkProc w1 (mkTextFile (case_text sep (k + Z.of_nat j) v)
                    (d ++ case_texts sep k (firstn j vs)) (Some 0)) sig).
Proof.
  induction g as [f IH] using gen_induction.
  intros j k w d sig vs r w' Hd Hj.
  cbn [print_cases drain heap ostr sigpipe] in *. specialize (IH w).
  destruct (f w) as [v w1 g1| w1 | e w1].
  - destruct (drain g1 w1) as [[vs1 r1] w2] eqn:E1.
    inversion Hd; subst. rewrite print_case_TextFile.
    destruct j as [|j].
    + exists v, w1. split; [reflexivity|].
      cbn. now rewrite Z.add_0_r, app_nil_r.
    + cbn in Hj.
      destruct (IH j (k + 1)%Z w1 (d ++ [case_text sep k v]) sig vs1 r w'
                  E1 ltac:(lia)) as (v' & w3 & Hn & Hp).
      exists v', w3. split; [exact Hn|]. rewrite Hp.
      cbn [firstn case_texts]. rewrite <- app_assoc. cbn [app].
      replace (k + 1 + Z.of_nat j)%Z with (k + Z.of_nat (S j))%Z by lia.
      reflexivity.
  - inversion Hd; subst. cbn in Hj. lia.
  - inversion Hd; subst. cbn in Hj. lia.
Qed.


End Printing.

(** ** Lines of the output *)

Lemma lines_app_LF l rest :
  ~ In LF l -> lines (l ++ LF :: rest) = l :: lines rest.
Proof.
  induction l as [|c l IH]; intros Hl.
  - reflexivity.
  - cbn [app lines]. destruct (Ascii.eqb c LF) eqn:E.
    + apply Ascii.eqb_eq in E. exfalso. apply Hl. now left.
    + rewrite IH; [reflexivity|]. intros Hin. apply Hl. now right.
Qed.

Lemma uint_chars_no_LF d : ~ In LF (uint_chars d).
Proof.
  induction d; cbn [uint_chars In]; [intros [] | ..];
    (intros [E|Hin]; [vm_compute in E; discriminate E | auto]).
Qed.

Lemma str_int_no_LF z : ~ In LF (str_int z).
Proof.
  unfold str_int. destruct (Z.to_int z) as [d|d]; cbn [In].
  - apply uint_chars_no_LF.
  - intros [E|Hin]; [vm_compute in E; discriminate E|].
    now apply uint_chars_no_LF in Hin.
Qed.

Section CaseLines.
Context {A : Type} `{Str A}.

Lemma case_text_line (k : Z) (v : A) :
  case_text [SPACE] k v = case_line k v ++ [LF].
Proof.
  unfold case_text, case_line, format_case. now rewrite <- !app_assoc.
Qed.

Lemma case_line_no_LF (k : Z) (v : A) :
  ~ In LF (py_str v) -> ~ In LF (case_line k v).
Proof.
  intros Hv. unfold case_line. rewrite !in_app_iff.
  intros [Hin|[Hin|[Hin|Hin]]].
  - vm_compute in Hin. intuition discriminate.
  - now apply str_int_no_LF in Hin.
  - vm_compute in Hin. intuition discriminate.
  - auto.
Qed.

(** Splitting the text of the cases into lines gives back one line per
    case, when no solution prints a newline of its own. *)
Lemma lines_case_texts vs : forall k,
  Forall (fun v => ~ In LF (py_str v)) vs ->
  lines (concat (case_texts [SPACE] k vs)) = case_lines k vs.
Proof.
  induction vs as [|v vs IH]; intros k Hvs; [reflexivity|].
  inversion Hvs; subst. cbn [case_texts concat case_lines].
  rewrite case_text_line, <- app_assoc. cbn [app].
  rewrite lines_app_LF by now apply case_line_no_LF.
  now rewrite IH.
Qed.

Lemma length_case_lines vs : forall k, length (case_lines k vs) = length vs.
Proof. induction vs; intros; cbn; auto. Qed.
End CaseLines.

(* ================================================================= *)
(** * The properties of the specification *)

(** C1. On the input "3 / 1 2 / 3 4 / 5 6" (four lines), [solve_code_jam]
    with the solver that adds two integers and [insert_newline = False]
    returns normally and writes exactly the three lines "Case #1: 3",
    "Case #2: 7", "Case #3: 11", in this order, each flushed on its own. *)
Theorem solve_code_jam_sum_example :
  solve_code_jam sum_solver (readlines example_input) (TextFile_open None) false
  = (Ok tt,
     mkProc (mkTokens [] [])
       (mkTextFile []
          [s_ "Case #1: 3" ++ [LF]; s_ "Case #2: 7" ++ [LF];
           s_ "Case #3: 11" ++ [LF]] None)
       SIG_IGN)
  /\ lines (concat (delivered (ostr (snd
       (solve_code_jam sum_solver (readlines example_input)
          (TextFile_open None) false)))))
     = [s_ "Case #1: 3"; s_ "Case #2: 7"; s_ "Case #3: 11"].
Proof. split; vm_compute; reflexivity. Qed.

(** C2. When the first token of the input is the integer [n] and [n] integer
    tokens follow it, the generator of [solve_code_jam] with the solver
    that reads one integer yields exactly these [n] integers, in order,
    ends normally and leaves what follows unread; [solve_code_jam] returns
    normally having delivered one "Case" text for each.  With [n = 0] there
    is no solution and nothing is written. *)
Theorem solve_code_jam_echo (stream : list str) (c : str) (toks rest : list str)
  (n : nat) (vs : list Z) (insert_newline : bool) :
  tokenize stream = c :: toks ++ rest ->
  py_int c = Ok (Z.of_nat n) ->
  length toks = n ->
  Forall2 (fun tok v => py_int tok = Ok v) toks vs ->
  exists self',
    drain (solve echo_solver) (Tokens_init stream) = (vs, Ok tt, self')
    /\ remaining self' = rest
    /\ length vs = n
    /\ solve_code_jam echo_solver stream (TextFile_open None) insert_newline
       = (Ok tt,
          mkProc self'
            (mkTextFile []
               (case_texts (if insert_newline then [LF] else [SPACE]) 1 vs)
               None)
            SIG_IGN)
    /\ (n = 0 ->
        vs = []
        /\ solve_code_jam echo_solver stream (TextFile_open None) insert_newline
           = (Ok tt, mkProc self' (TextFile_open None) SIG_IGN)).
Proof.
  intros Hs Hc Hlen Hvs.
  destruct (next_token_some py_int (Tokens_init stream) c (toks ++ rest) Hs)
    as (self1 & Hnext & Hr1).
  assert (Hd : exists self',
             drain (solve echo_solver) (Tokens_init stream) = (vs, Ok tt, self')
             /\ remaining self' = rest).
  { rewrite drain_solve, Hnext, Hc, Nat2Z.id.
    destruct (drain_next_many py_int n self1) as (self' & Hd & Hr').
    rewrite Hr1, <- Hlen, (read_many_all py_int toks vs rest Hvs) in Hd, Hr'.
    cbn [fst snd] in Hd, Hr'. exists self'. rewrite <- Hlen.
    split; assumption. }
  destruct Hd as (self' & Hd & Hr'). exists self'.
  assert (Hout : solve_code_jam echo_solver stream (TextFile_open None)
                   insert_newline
                 = (Ok tt,
                    mkProc self'
                      (mkTextFile []
                         (case_texts (if insert_newline then [LF] else [SPACE])
                            1 vs) None) SIG_IGN)).
  { unfold solve_code_jam, generator_solve_code_jam, print_code_jam,
      TextFile_open.
    rewrite print_cases_TextFile, Hd. reflexivity. }
  split; [exact Hd|]. split; [exact Hr'|].
  split; [rewrite <- (Forall2_length Hvs); exact Hlen|].
  split; [exact Hout|].
  intros ->. destruct toks; [|discriminate].
  inversion Hvs; subst. split; [reflexivity|exact Hout].
Qed.

Lemma solve_code_jam_echo_witness :
  exists self',
    drain (solve echo_solver) (Tokens_init [s_ "2 10"; s_ "-4 99"])
    = ([10; -4]%Z, Ok tt, self')
    /\ remaining self' = [s_ "99"]
    /\ length [10; -4]%Z = 2
    /\ solve_code_jam echo_solver [s_ "2 10"; s_ "-4 99"] (TextFile_open None)
         false
       = (Ok tt,
          mkProc self'
            (mkTextFile [] (case_texts [SPACE] 1 [10; -4]%Z) None) SIG_IGN)
    /\ (2 = 0 ->
        [10; -4]%Z = []
        /\ solve_code_jam echo_solver [s_ "2 10"; s_ "-4 99"]
             (TextFile_open None) false
           = (Ok tt, mkProc self' (TextFile_open None) SIG_IGN)).
Proof.
  apply (solve_code_jam_echo [s_ "2 10"; s_ "-4 99"] (s_ "2")
           [s_ "10"; s_ "-4"] [s_ "99"] 2 [10; -4]%Z false).
  - reflexivity.
  - reflexivity.
  - reflexivity.
  - repeat constructor.
Defined.



(** ** What [int] rejects *)

Lemma lstrip_keeps (c : ascii) (s : str) :
  isspace c = false -> In c s -> In c (lstrip s).
Proof.
  intros Hc. induction s as [|x s IH]; [trivial|].
  cbn [lstrip]. destruct (isspace x) eqn:Hx; [|trivial].
  intros [->|Hin]; [congruence|auto].
Qed.

Lemma strip_keeps (c : ascii) (s : str) :
  isspace c = false -> In c s -> In c (strip s).
Proof.
  intros Hc Hin. unfold strip. rewrite <- in_rev.
  apply lstrip_keeps; [assumption|]. rewrite <- in_rev.
  now apply lstrip_keeps.
Qed.

Lemma parse_digits_rejects (c : ascii) (s : str) : forall acc prev,
  In c s -> digit_val c = None -> c <> underscore ->
  parse_digits acc prev s = None.
Proof.
  induction s as [|x s IH]; intros acc prev Hin Hd Hu; [destruct Hin|].
  cbn [parse_digits]. destruct Hin as [->|Hin].
  - rewrite Hd. apply Ascii.eqb_neq in Hu. now rewrite Hu.
  - destruct (digit_val x); [now apply IH|].
    destruct (Ascii.eqb x underscore && prev); [now apply IH|reflexivity].
Qed.

(** A token with a character that is no digit, sign, underscore or
    whitespace is no integer for [int]. *)
Lemma py_int_non_numeric (tok : str) (c : ascii) :
  In c tok -> digit_val c = None ->
  c <> underscore -> c <> plus_sign -> c <> minus_sign -> isspace c = false ->
  py_int tok = Err ValueError.
Proof.
  intros Hin Hd Hu Hp Hm Hs. unfold py_int.
  pose proof (strip_keeps c tok Hs Hin) as Hin'.
  destruct (strip tok) as [|x r]; [destruct Hin'|].
  assert (Hr : x = c \/ In c r) by exact Hin'.
  destruct (Ascii.eqb x minus_sign) eqn:Em.
  - apply Ascii.eqb_eq in Em. subst x.
    destruct Hr as [E|Hr]; [congruence|].
    now rewrite (parse_digits_rejects c r 0%Z false Hr Hd Hu).
  - destruct (Ascii.eqb x plus_sign) eqn:Ep.
    + apply Ascii.eqb_eq in Ep. subst x.
      destruct Hr as [E|Hr]; [congruence|].
      now rewrite (parse_digits_rejects c r 0%Z false Hr Hd Hu).
    + now rewrite (parse_digits_rejects c (x :: r) 0%Z false Hin' Hd Hu).
Qed.

(** C4. [next_token(t)] on a stream with a token left takes exactly that
    token and returns [t] of it; when [t] raises on the token that
    exception comes out, the token taken all the same, and [int] raises
    [ValueError] on a token that is no integer (here: one with a character
    that is no digit, sign or underscore); on a stream with no token left
    [next_token] raises [StopIteration]. *)
Theorem next_token_spec {A : Type} (t : str -> result A) (self : Tokens) :
  (forall tok rest,
      remaining self = tok :: rest ->
      exists self', next_token t self = (t tok, self') /\ remaining self' = rest)
  /\ (forall tok rest e,
         remaining self = tok :: rest -> t tok = Err e ->
         exists self',
           next_token t self = (Err e, self') /\ remaining self' = rest)
  /\ (forall tok rest c,
         remaining self = tok :: rest ->
         In c tok -> digit_val c = None ->
         c <> underscore -> c <> plus_sign -> c <> minus_sign ->
         isspace c = false ->
         exists self',
           next_token py_int self = (Err ValueError, self')
           /\ remaining self' = rest)
  /\ (remaining self = [] ->
      exists self',
        next_token t self = (Err StopIteration, self') /\ remaining self' = []).
Proof.
  split; [|split; [|split]].
  - intros tok rest E. now apply next_token_some.
  - intros tok rest e E Ht.
    destruct (next_token_some t self tok rest E) as (self' & Hn & Hr).
    exists self'. now rewrite Hn, Ht.
  - intros tok rest c E Hin Hd Hu Hp Hm Hs.
    destruct (next_token_some py_int self tok rest E) as (self' & Hn & Hr).
    exists self'.
    now rewrite Hn, (py_int_non_numeric tok c Hin Hd Hu Hp Hm Hs).
  - intros E. exists (mkTokens [] []). split; [|reflexivity].
    now apply next_token_none.
Qed.

Lemma next_token_spec_witness :
  (exists self',
      next_token py_int (Tokens_init [s_ "12 abc"]) = (Ok 12%Z, self')
      /\ remaining self' = [s_ "abc"])
  /\ (exists self',
         next_token py_int (mkTokens [s_ "abc"] [s_ "7"]) = (Err ValueError, self')
         /\ remaining self' = [s_ "7"])
  /\ (exists self',
         next_token py_int (Tokens_init [s_ "1x 7"]) = (Err ValueError, self')
         /\ remaining self' = [s_ "7"])
  /\ (exists self',
         next_token py_int (Tokens_init [[LF]; s_ "  "])
         = (Err StopIteration, self')
         /\ remaining self' = []).
Proof.
  split; [|split; [|split]].
  - exact (proj1 (next_token_spec py_int (Tokens_init [s_ "12 abc"]))
             (s_ "12") [s_ "abc"] eq_refl).
  - exact (proj1 (proj2 (next_token_spec py_int (mkTokens [s_ "abc"] [s_ "7"])))
             (s_ "abc") [s_ "7"] ValueError eq_refl eq_refl).
  - apply (proj1 (proj2 (proj2
             (next_token_spec py_int (Tokens_init [s_ "1x 7"]))))
             (s_ "1x") [s_ "7"] (ascii_of_nat 120)).
    + reflexivity.
    + right. left. reflexivity.
    + reflexivity.
    + discriminate.
    + discriminate.
    + discriminate.
    + reflexivity.
  - exact (proj2 (proj2 (proj2
             (next_token_spec py_int (Tokens_init [[LF]; s_ "  "])))) eq_refl).
Defined.

(** C8. For every character stream [s], read line by line, [tokenize]
    yields exactly the maximal runs of non-whitespace characters of [s], in
    the order of [s]: tokenizing by lines is splitting the whole stream at
    whitespace, the result is the one list of maximal runs, and no token
    is empty or holds a whitespace character (a newline is one). *)
Theorem tokenize_max_runs (s : str) :
  tokenize (readlines s) = split s
  /\ max_runs s (tokenize (readlines s))
  /\ (forall ts, max_runs s ts -> ts = tokenize (readlines s))
  /\ Forall (fun t => t <> [] /\ no_space t) (tokenize (readlines s)).
Proof.
  rewrite tokenize_readlines. repeat split.
  - apply max_runs_split.
  - apply max_runs_unique.
  - apply (max_runs_tokens s). apply max_runs_split.
Qed.

Lemma tokenize_max_runs_witness :
  [s_ "ab"; s_ "c"; s_ "d"] = tokenize (readlines (s_ " ab" ++ [LF] ++ s_ "c d")).
Proof.
  apply (proj1 (proj2 (proj2
           (tokenize_max_runs (s_ " ab" ++ [LF] ++ s_ "c d"))))).
  apply (runs_token (ws := s_ " ") (t := s_ "ab") (rest := LF :: s_ "c d"));
    [repeat constructor | discriminate | repeat constructor | reflexivity |].
  apply (runs_token (ws := [LF]) (t := s_ "c") (rest := s_ " d"));
    [repeat constructor | discriminate | repeat constructor | reflexivity |].
  apply (runs_token (ws := s_ " ") (t := s_ "d") (rest := []));
    [repeat constructor | discriminate | repeat constructor | exact I |].
  apply runs_none. constructor.
Defined.

(** Consuming [next_many_tokens(n, t)] when the [n] tokens are there. *)
Lemma drain_next_many_exact {A : Type} (t : str -> result A) (n : Z)
  (self : Tokens) (toks rest : list str) (vs : list A) :
  remaining self = toks ++ rest ->
  Forall2 (fun tok v => t tok = Ok v) toks vs ->
  length toks = Z.to_nat n ->
  exists self',
    drain (next_many_tokens n t) self = (vs, Ok tt, self')
    /\ remaining self' = rest.
Proof.
  intros Hr Hvs Hlen. unfold next_many_tokens.
  destruct (drain_next_many t (Z.to_nat n) self) as (self' & Hd & Hr').
  rewrite <- Hlen in *.
  rewrite Hr, (read_many_all t toks vs rest Hvs) in Hd, Hr'.
  cbn [fst snd] in Hd, Hr'. eauto.
Qed.

(** Consuming it when the stream ends first. *)
Lemma drain_next_many_short {A : Type} (t : str -> result A) (n : Z)
  (self : Tokens) (toks : list str) (vs : list A) :
  remaining self = toks ->
  Forall2 (fun tok v => t tok = Ok v) toks vs ->
  length toks < Z.to_nat n ->
  exists self',
    drain (next_many_tokens n t) self = (vs, Err RuntimeError, self')
    /\ remaining self' = [].
Proof.
  intros Hr Hvs Hlen. unfold next_many_tokens.
  destruct (drain_next_many t (Z.to_nat n) self) as (self' & Hd & Hr').
  rewrite Hr, (read_many_short t toks vs _ Hvs Hlen) in Hd, Hr'.
  cbn [fst snd] in Hd, Hr'. eauto.
Qed.

(** C5, as the code has it.  Fully consuming [next_many_tokens(n, t)]: when
    the next [n] tokens are there and [t] converts each, exactly these [n]
    tokens are taken, in order, the values of [t] on them are yielded and
    the iteration ends normally, what follows left in place.  When the
    stream ends before [n] tokens are read, the values of all the tokens
    there were are yielded and the iteration then fails with the
    [RuntimeError] that the generator makes of the cursor's
    [StopIteration]; the tokens read stay read. *)
Theorem next_many_tokens_drain {A : Type} (t : str -> result A) (n : Z)
  (self : Tokens) (toks rest : list str) (vs : list A) :
  remaining self = toks ++ rest ->
  Forall2 (fun tok v => t tok = Ok v) toks vs ->
  (length toks = Z.to_nat n ->
   exists self',
     drain (next_many_tokens n t) self = (vs, Ok tt, self')
     /\ remaining self' = rest)
  /\ (length toks < Z.to_nat n -> rest = [] ->
      exists self',
        drain (next_many_tokens n t) self = (vs, Err RuntimeError, self')
        /\ remaining self' = []).
Proof.
  intros Hr Hvs. split.
  - now apply drain_next_many_exact with (toks := toks).
  - intros Hlen ->. rewrite app_nil_r in Hr.
    now apply drain_next_many_short with (toks := toks).
Qed.

Lemma next_many_tokens_drain_witness :
  (exists self',
      drain (next_many_tokens 2 py_int) (Tokens_init [s_ "4 5"; s_ "6"])
      = ([4; 5]%Z, Ok tt, self')
      /\ remaining self' = [s_ "6"])
  /\ (exists self',
         drain (next_many_tokens 3 py_int) (Tokens_init [s_ "4 5"])
         = ([4; 5]%Z, Err RuntimeError, self')
         /\ remaining self' = []).
Proof.
  split.
  - apply (proj1 (next_many_tokens_drain py_int 2
                    (Tokens_init [s_ "4 5"; s_ "6"]) [s_ "4"; s_ "5"] [s_ "6"]
                    [4; 5]%Z eq_refl ltac:(repeat constructor))).
    reflexivity.
  - apply (proj2 (next_many_tokens_drain py_int 3
                    (Tokens_init [s_ "4 5"]) [s_ "4"; s_ "5"] []
                    [4; 5]%Z eq_refl ltac:(repeat constructor))).
    + cbn. lia.
    + reflexivity.
Defined.

(** C5 as stated fails: on a stream that ends early the consumer of
    [next_many_tokens] does not get the exception that [next_token] raises
    on an exhausted stream ([StopIteration]) but a [RuntimeError]. *)
Lemma next_many_tokens_short_not_StopIteration :
  next_token py_int (Tokens_init [])
  = (Err StopIteration, mkTokens [] [])
  /\ drain (next_many_tokens 2 py_int) (Tokens_init [s_ "1"])
     = ([1%Z], Err RuntimeError, mkTokens [] [])
  /\ snd (fst (drain (next_many_tokens 2 py_int) (Tokens_init [s_ "1"])))
     <> Err StopIteration.
Proof. repeat split. vm_compute. discriminate. Qed.

(** C6, as the code has it.  When the next token is the integer [n], the
    [n] tokens after it are there and [t] converts each:
    [next_counted_tokens(t)] takes the count token and nothing more; fully
    consuming the generator it returns takes exactly the [n] tokens after
    the count, whatever follows them, and every later token stays
    available, unchanged and in order. *)
Theorem next_counted_tokens_reads_count {A : Type} (t : str -> result A)
  (self : Tokens) (c : str) (toks rest : list str) (n : Z) (vs : list A) :
  remaining self = c :: toks ++ rest ->
  py_int c = Ok n ->
  length toks = Z.to_nat n ->
  Forall2 (fun tok v => t tok = Ok v) toks vs ->
  exists g self1 self2,
    next_counted_tokens t self = (Ok g, self1)
    /\ remaining self1 = toks ++ rest
    /\ drain g self1 = (vs, Ok tt, self2)
    /\ remaining self2 = rest.
Proof.
  intros Hr Hc Hlen Hvs.
  destruct (next_token_some py_int self c (toks ++ rest) Hr)
    as (self1 & Hn & Hr1).
  destruct (drain_next_many_exact t n self1 toks rest vs Hr1 Hvs Hlen)
    as (self2 & Hd & Hr2).
  exists (next_many_tokens n t), self1, self2.
  repeat split; trivial.
  unfold next_counted_tokens, bind, ret. now rewrite Hn, Hc.
Qed.

Lemma next_counted_tokens_reads_count_witness :
  exists g self1 self2,
    next_counted_tokens py_int (Tokens_init [s_ "2 8 9 x"]) = (Ok g, self1)
    /\ remaining self1 = [s_ "8"; s_ "9"] ++ [s_ "x"]
    /\ drain g self1 = ([8; 9]%Z, Ok tt, self2)
    /\ remaining self2 = [s_ "x"].
Proof.
  apply (next_counted_tokens_reads_count py_int (Tokens_init [s_ "2 8 9 x"])
           (s_ "2") [s_ "8"; s_ "9"] [s_ "x"] 2 [8; 9]%Z).
  - reflexivity.
  - reflexivity.
  - reflexivity.
  - repeat constructor.
Defined.

(** C6 as stated fails: on the stream "2 7" the next token is the count 2,
    and fully consuming what [next_counted_tokens] returns reads one token
    beyond the count, not two, before it fails.  Nor is the number read
    independent of the tokens that follow: on "2 x 5 9" read with [int],
    [int] raises on "x", one token has been read beyond the count, and "5"
    is still there. *)
Lemma next_counted_tokens_short_stream :
  (exists g self1 self2,
      py_int (s_ "2") = Ok 2%Z
      /\ next_counted_tokens py_int (Tokens_init [s_ "2 7"]) = (Ok g, self1)
      /\ remaining self1 = [s_ "7"]
      /\ drain g self1 = ([7%Z], Err RuntimeError, self2)
      /\ remaining self2 = []
      /\ length (remaining self1) <> Z.to_nat 2 + length (remaining self2))
  /\ (exists g self1 self2,
         next_counted_tokens py_int (Tokens_init [s_ "2 x 5 9"]) = (Ok g, self1)
         /\ remaining self1 = [s_ "x"; s_ "5"; s_ "9"]
         /\ drain g self1 = ([], Err ValueError, self2)
         /\ remaining self2 = [s_ "5"; s_ "9"]
         /\ length (remaining self1) <> Z.to_nat 2 + length (remaining self2)).
Proof.
  split.
  - exists (next_many_tokens 2 py_int), (mkTokens [s_ "7"] []), (mkTokens [] []).
    repeat split. vm_compute. discriminate.
  - exists (next_many_tokens 2 py_int), (mkTokens [s_ "x"; s_ "5"; s_ "9"] []),
      (mkTokens [s_ "5"; s_ "9"] []).
    repeat split. vm_compute. discriminate.
Qed.

(** C7, as the code has it.  [print_code_jam] never lets a
    [BrokenPipeError] out: when its loop is ended by one, whatever the
    file, it resets SIGPIPE to the default and returns normally.  On a
    block-buffered file whose reader goes away after [j] chunks, with more
    than [j] solutions to print, it returns normally; the reader has
    received exactly the texts of the first [j] cases, each complete, the
    text of case [j+1] is still in the buffer and no later case has been
    written. *)
Theorem print_code_jam_broken_pipe {W F A : Type} `{FileLike F} `{Str A}
  (solutions : gen W A) (insert_newline : bool) (w w' : W) (out : F)
  (sig : handler) (j : nat) (vs : list A) (r : result unit) :
  drain solutions w = (vs, r, w') ->
  j < length vs ->
  fst (print_code_jam solutions insert_newline (mkProc w out sig))
  <> Err BrokenPipeError
  /\ (forall p',
         print_cases (if insert_newline then [LF] else [SPACE]) 1 solutions
           (mkProc w out sig) = (Err BrokenPipeError, p') ->
         print_code_jam solutions insert_newline (mkProc w out sig)
         = (Ok tt, mkProc (heap p') (ostr p') SIG_DFL))
  /\ exists v w1,
      nth_error vs j = Some v
      /\ print_code_jam solutions insert_newline
           (mkProc w (TextFile_open (Some j)) sig)
         = (Ok tt,
            mkProc w1
              (mkTextFile
                 (case_text (if insert_newline then [LF] else [SPACE])
                    (1 + Z.of_nat j) v)
                 (case_texts (if insert_newline then [LF] else [SPACE]) 1
                    (firstn j vs))
                 (Some 0))
              SIG_DFL).
Proof.
  intros Hd Hj. split; [|split].
  - unfold print_code_jam.
    destruct (print_cases _ 1 solutions (mkProc w out sig)) as [[u|e] p'];
      [discriminate|].
    destruct e; discriminate.
  - intros p' Hp. unfold print_code_jam. cbv zeta.
    match goal with
    | |- context [print_cases ?sep ?k ?g ?p] =>
        change (print_cases sep k g p)
          with (print_cases (if insert_newline then [LF] else [SPACE]) 1
                  solutions (mkProc w out sig))
    end.
    rewrite Hp. reflexivity.
  - unfold print_code_jam, TextFile_open. cbv zeta.
    match goal with
    | |- context [print_cases ?sep _ _ _] =>
        destruct (print_cases_reader_gone sep solutions
                    j 1%Z w [] sig vs r w' Hd Hj) as (v & w1 & Hn & Hp)
    end.
    exists v, w1. split; [exact Hn|]. rewrite Hp. reflexivity.
Qed.

Lemma print_code_jam_broken_pipe_witness :
  fst (print_code_jam (iter_list [3; 7; 11]%Z) false
         (mkProc tt (mkRawPipe [] 5) SIG_IGN))
  <> Err BrokenPipeError
  /\ (forall p',
         print_cases [SPACE] 1 (iter_list [3; 7; 11]%Z)
           (mkProc tt (mkRawPipe [] 5) SIG_IGN) = (Err BrokenPipeError, p') ->
         print_code_jam (iter_list [3; 7; 11]%Z) false
           (mkProc tt (mkRawPipe [] 5) SIG_IGN)
         = (Ok tt, mkProc (heap p') (ostr p') SIG_DFL))
  /\ exists v w1,
      nth_error [3; 7; 11]%Z 1 = Some v
      /\ print_code_jam (iter_list [3; 7; 11]%Z) false
           (mkProc tt (TextFile_open (Some 1)) SIG_IGN)
         = (Ok tt,
            mkProc w1
              (mkTextFile (case_text [SPACE] (1 + Z.of_nat 1) v)
                 (case_texts [SPACE] 1 (firstn 1 [3; 7; 11]%Z)) (Some 0))
              SIG_DFL).
Proof.
  apply (print_code_jam_broken_pipe (iter_list [3; 7; 11]%Z) false tt tt
           (mkRawPipe [] 5) SIG_IGN 1 [3; 7; 11]%Z (Ok tt)).
  - reflexivity.
  - cbn. lia.
Defined.

(** C7 as stated fails: on an unbuffered pipe whose reader goes away
    during the second case, [print_code_jam] returns normally but the pipe
    has received "Case #1: 3", a newline, and "Case #2:": the second line
    is partial, and what was written is not a whole number of case
    lines. *)
Lemma print_code_jam_partial_line :
  print_code_jam (iter_list [3; 7]%Z) false (mkProc tt (mkRawPipe [] 5) SIG_IGN)
  = (Ok tt,
     mkProc tt (mkRawPipe (s_ "Case #1: 3" ++ [LF] ++ s_ "Case #2:") 0) SIG_DFL)
  /\ forall j,
      s_ "Case #1: 3" ++ [LF] ++ s_ "Case #2:"
      <> concat (case_texts [SPACE] 1 (firstn j [3; 7]%Z)).
Proof.
  split; [vm_compute; reflexivity|].
  intros [|[|[|j]]]; vm_compute; discriminate.
Qed.

Lemma nth_error_case_lines {A : Type} `{Str A} (vs : list A) : forall k i v,
  nth_error vs i = Some v ->
  nth_error (case_lines k vs) i = Some (case_line (k + Z.of_nat i) v).
Proof.
  induction vs as [|x vs IH]; intros k [|i] v E; try discriminate.
  - cbn in *. inversion E. now rewrite Z.add_0_r.
  - cbn [nth_error case_lines] in *. rewrite (IH _ _ _ E).
    do 2 f_equal. lia.
Qed.

(** C9, as the code has it.  When no solution's text holds a newline,
    printing [k] solutions with [insert_newline = False] and splitting the
    output into lines gives exactly [k] lines, the i-th being
    "Case #i: value_i". *)
Theorem print_code_jam_lines {W A : Type} `{Str A} (solutions : gen W A)
  (w w' : W) (vs : list A) (sig : handler) :
  drain solutions w = (vs, Ok tt, w') ->
  Forall (fun v => ~ In LF (py_str v)) vs ->
  let output :=
    concat (delivered (ostr (snd
      (print_code_jam solutions false (mkProc w (TextFile_open None) sig))))) in
  lines output = case_lines 1 vs
  /\ length (lines output) = length vs
  /\ forall i v,
      nth_error vs i = Some v ->
      nth_error (lines output) i
      = Some (s_ "Case #" ++ str_int (Z.of_nat i + 1) ++ s_ ": " ++ py_str v).
Proof.
  intros Hd Hvs output.
  assert (E : lines output = case_lines 1 vs).
  { subst output. unfold print_code_jam, TextFile_open.
    rewrite print_cases_TextFile, Hd. cbn [snd ostr delivered app].
    now apply lines_case_texts. }
  rewrite E. split; [reflexivity|]. split; [apply length_case_lines|].
  intros i v Hi. rewrite (nth_error_case_lines vs 1 i v Hi).
  unfold case_line. replace (1 + Z.of_nat i)%Z with (Z.of_nat i + 1)%Z by lia.
  reflexivity.
Qed.

Lemma print_code_jam_lines_witness :
  let output :=
    concat (delivered (ostr (snd
      (print_code_jam (iter_list [s_ "yes"; s_ "no no"]) false
         (mkProc tt (TextFile_open None) SIG_IGN))))) in
  lines output = case_lines 1 [s_ "yes"; s_ "no no"]
  /\ length (lines output) = length [s_ "yes"; s_ "no no"]
  /\ forall i v,
      nth_error [s_ "yes"; s_ "no no"] i = Some v ->
      nth_error (lines output) i
      = Some (s_ "Case #" ++ str_int (Z.of_nat i + 1) ++ s_ ": " ++ py_str v).
Proof.
  apply (print_code_jam_lines (iter_list [s_ "yes"; s_ "no no"]) tt tt
           [s_ "yes"; s_ "no no"] SIG_IGN).
  - reflexivity.
  - repeat constructor; intros Hin; vm_compute in Hin; intuition discriminate.
Defined.

(** C9 as stated fails: one solution whose text is "a", a newline, "b" is
    printed as two lines, "Case #1: a" and "b". *)
Lemma print_code_jam_multiline_solution :
  let output :=
    concat (delivered (ostr (snd
      (print_code_jam (iter_list [s_ "a" ++ [LF] ++ s_ "b"]) false
         (mkProc tt (TextFile_open None) SIG_IGN))))) in
  lines output = [s_ "Case #1: a"; s_ "b"]
  /\ length (lines output) <> length [s_ "a" ++ [LF] ++ s_ "b"].
Proof. split; vm_compute; [reflexivity | discriminate]. Qed.

(** ** One cursor for every read *)

Section SingleCursor.
Variable A : Type.

Lemma gens_ok_set_gen (l : list ((str -> result A) * gen Tokens A)) :
  forall g k t0 g0,
  gens_ok l ->
  nth_error l g = Some (t0, g0) ->
  gens_ok (set_gen g (range_loop k (next_token t0)) l).
Proof.
  induction l as [|[t1 g1] l IH]; intros g k t0 g0 Hl Hn.
  - destruct g; discriminate.
  - inversion Hl as [|? ? H1 Hl']; subst. destruct g as [|g].
    + cbn in Hn. inversion Hn; subst. cbn. constructor; [|assumption].
      cbn. eauto.
    + cbn in Hn. cbn. constructor; [assumption|]. eapply IH; eauto.
Qed.

Lemma gens_ok_nth (l : list ((str -> result A) * gen Tokens A)) g t0 g0 :
  gens_ok l -> nth_error l g = Some (t0, g0) ->
  exists k, g0 = range_loop k (next_token t0).
Proof.
  intros Hl Hn. apply nth_error_In in Hn.
  unfold gens_ok in Hl. rewrite Forall_forall in Hl.
  exact (Hl _ Hn).
Qed.

Lemma gens_ok_app (l : list ((str -> result A) * gen Tokens A)) t0 k :
  gens_ok l -> gens_ok (l ++ [(t0, range_loop k (next_token t0))]).
Proof.
  intros Hl. apply Forall_app. split; [assumption|].
  constructor; [|constructor]. cbn. eauto.
Qed.

(** One operation takes no token, or takes the first remaining token and
    returns what that token makes it return. *)
Lemma do_op_cursor (c : op A) (s : client A) :
  gens_ok (gens s) ->
  let '(r, s') := do_op c s in
  gens_ok (gens s')
  /\ ((remaining (tokens s') = remaining (tokens s) /\ idle c s r)
      \/ exists token,
          remaining (tokens s) = token :: remaining (tokens s')
          /\ delivery c s token = Some r).
Proof.
  intros Hok. destruct s as [self l]. cbn [gens tokens] in *.
  destruct c as [|t|n t|t|g]; cbn [do_op gens tokens delivery idle].
  - (* Iterate *)
    destruct (remaining self) as [|tok rest] eqn:E.
    + rewrite (tokens_next_none self E). cbn. auto.
    + destruct (tokens_next_some self tok rest E) as (self' & -> & Hr).
      cbn. split; [assumption|]. right. exists tok. rewrite Hr. auto.
  - (* ReadOne *)
    destruct (remaining self) as [|tok rest] eqn:E.
    + rewrite (next_token_none t self E). cbn. auto.
    + destruct (next_token_some t self tok rest E) as (self' & -> & Hr).
      destruct (t tok) as [a|e] eqn:Et; cbn; (split; [assumption|]);
        right; exists tok; rewrite Hr, Et; auto.
  - (* ReadMany *)
    cbn. split; [now apply gens_ok_app|]. left. auto.
  - (* ReadCounted *)
    unfold next_counted_tokens, bind, ret.
    destruct (remaining self) as [|tok rest] eqn:E.
    + rewrite (next_token_none py_int self E). cbn. auto.
    + destruct (next_token_some py_int self tok rest E) as (self' & -> & Hr).
      destruct (py_int tok) as [n|e] eqn:Et; cbn.
      * split; [now apply gens_ok_app|].
        right. exists tok. rewrite Hr, Et. auto.
      * split; [assumption|]. right. exists tok. rewrite Hr, Et. auto.
  - (* Pull *)
    destruct (nth_error l g) as [[t0 g0]|] eqn:En; [|cbn; auto].
    destruct (gens_ok_nth l g t0 g0 Hok En) as (k & ->).
    destruct k as [|k].
    + cbn. split; [|left; auto].
      exact (gens_ok_set_gen l g 0 t0 _ Hok En).
    + cbn [range_loop resume].
      destruct (remaining self) as [|tok rest] eqn:E.
      * rewrite (next_token_none t0 self E). cbn. split; [|left; auto].
        exact (gens_ok_set_gen l g 0 t0 _ Hok En).
      * destruct (next_token_some t0 self tok rest E) as (self' & -> & Hr).
        destruct (t0 tok) as [a|e] eqn:Et; cbn.
        -- split; [exact (gens_ok_set_gen l g k t0 _ Hok En)|].
           right. exists tok. rewrite Hr, Et. auto.
        -- split; [exact (gens_ok_set_gen l g 0 t0 _ Hok En)|].
           right. exists tok. rewrite Hr, Et. auto.
Qed.

Lemma idle_no_value (c : op A) (s : client A) (r : result (value A)) :
  idle c s r -> is_value r = false.
Proof.
  destruct c; cbn [idle]; try (intros ->; reflexivity).
  intros [-> | ->]; reflexivity.
Qed.

Lemma run_cursor (ops : list (op A)) : forall s,
  gens_ok (gens s) ->
  exists taken,
    remaining (tokens s) = taken ++ remaining (tokens (snd (run ops s)))
    /\ deliveries ops s taken
    /\ length (filter (@is_value A) (fst (run ops s))) <= length taken.
Proof.
  induction ops as [|c ops IH]; intros s Hok.
  - exists []. repeat split. cbn. lia.
  - cbn [run deliveries]. pose proof (do_op_cursor c s Hok) as Hstep.
    destruct (do_op c s) as [r s1]. destruct Hstep as [Hok1 Hstep].
    destruct (IH s1 Hok1) as (taken & Hrem & Hdel & Hlen).
    destruct (run ops s1) as [rs s2]. cbn [fst snd filter] in *.
    destruct Hstep as [[Hsame Hidle] | (tok & Htok & Hdl)].
    + exists taken. split; [congruence|]. split; [left; auto|].
      now rewrite (idle_no_value c s r Hidle).
    + exists (tok :: taken). split; [|split].
      * rewrite Htok, Hrem. reflexivity.
      * right. exists tok, taken. auto.
      * destruct (is_value r); cbn [length]; lia.
Qed.
End SingleCursor.

(** A client that reads a counted pair lazily and reads around it: the
    count, a raw token, the first of the pair, a token by [next_token], the
    second of the pair, the end of the pair, and the last token. *)
Example interleaving_example :
  fst (run [ReadCounted py_int; Iterate; Pull 0; ReadOne py_int; Pull 0;
            Pull 0; Iterate; Iterate]
         (client_init [s_ "2 a 5"; s_ "6 7 8"]))
  = [Ok (VGen 0); Ok (VToken (s_ "a")); Ok (VConv 5%Z); Ok (VConv 6%Z);
     Ok (VConv 7%Z); Err StopIteration; Ok (VToken (s_ "8"));
     Err StopIteration].
Proof. vm_compute. reflexivity. Qed.

(** [deliveries] accounts for every value: an iteration that hands out the
    token "a" has taken it, and a second token handed out needs a second
    token taken. *)
Example deliveries_account :
  ~ deliveries [@Iterate Z] (client_init [s_ "a"]) []
  /\ ~ deliveries [@Iterate Z; Iterate] (client_init [s_ "a a"]) [s_ "a"]
  /\ deliveries [@Iterate Z; Iterate] (client_init [s_ "a a"]) [s_ "a"; s_ "a"].
Proof.
  split; [|split].
  - cbn. intros [(E & _) | (tok & tk & E & _)]; discriminate.
  - cbn. intros [(E & _) | (tok & tk & Etk & _ & _ & H)]; [discriminate|].
    inversion Etk; subst.
    destruct H as [(E & _) | (tok' & tk' & E & _)]; discriminate.
  - cbn. right. exists (s_ "a"), [s_ "a"]. repeat split.
    right. exists (s_ "a"), []. repeat split.
Qed.

(** C10. A client of one [Tokens] object that interleaves, in any order,
    direct iteration, [next_token], [next_many_tokens],
    [next_counted_tokens] and pulls from the generators these returned,
    takes the tokens of the input through one cursor.  The tokens taken by
    the whole run are a prefix of the tokens of the input and the tokens
    that remain are exactly the rest.  Every operation either takes no
    token and then hands out none (it fails, or only makes a generator), or
    takes the one next token of the input and returns what comes of that
    token; so each token of the input is handed out at most once, the
    tokens are handed out in the order of the input, and no more values
    are handed out than tokens were taken. *)
Theorem tokens_single_cursor {A : Type} (ops : list (op A)) (stream : list str) :
  exists taken,
    tokenize stream
    = taken ++ remaining (tokens (snd (run ops (client_init stream))))
    /\ deliveries ops (client_init stream) taken
    /\ length (filter (@is_value A) (fst (run ops (client_init stream))))
       <= length taken.
Proof.
  destruct (run_cursor A ops (client_init stream))
    as (taken & Hrem & Hdel & Hlen).
  - constructor.
  - exists taken. repeat split; assumption.
Qed.

(* ================================================================= *)
(** * Further properties of the code *)

(** ** The drivers at the edges of their input *)

(** Until the generator yields its first solution the file is not
    touched. *)
Lemma print_cases_no_solution {W F A : Type} `{FileLike F} `{Str A}
  (sep : str) (k : Z) (g : gen W A) (w w' : W) (r : result unit) (out : F)
  (sig : handler) :
  drain g w = ([], r, w') ->
  print_cases sep k g (mkProc w out sig) = (r, mkProc w' out sig).
Proof.
  destruct g as [f]. cbn [drain print_cases heap ostr sigpipe].
  destruct (f w) as [a w1 g1 | w1 | e w1].
  - destruct (drain g1 w1) as [[l r1] w2]. discriminate.
  - intros E. inversion E; subst. reflexivity.
  - intros E. inversion E; subst. reflexivity.
Qed.

Lemma tokenize_all_space (stream : list str) :
  Forall all_space stream -> tokenize stream = [].
Proof.
  induction 1 as [|l ls Hl _ IH]; [reflexivity|].
  cbn [tokenize]. now rewrite (split_all_space l Hl), IH.
Qed.

(** X1. On an input with no token at all (empty, or nothing but
    whitespace) [solve_code_jam] raises [RuntimeError], whatever the solver
    and the output file: the [StopIteration] of the count read escapes the
    generator [solve].  Nothing is written and SIGPIPE is left alone. *)
Theorem solve_code_jam_no_token {F A : Type} `{FileLike F} `{Str A}
  (solver : M Tokens A) (stream : list str) (out : F) (insert_newline : bool) :
  Forall all_space stream ->
  solve_code_jam solver stream out insert_newline
  = (Err RuntimeError, mkProc (mkTokens [] []) out SIG_IGN).
Proof.
  intros Hs. unfold solve_code_jam, generator_solve_code_jam, print_code_jam.
  cbv zeta.
  assert (Hd : drain (solve solver) (Tokens_init stream)
               = ([], Err RuntimeError, mkTokens [] [])).
  { rewrite drain_solve, next_token_none; [reflexivity|].
    rewrite remaining_init. now apply tokenize_all_space. }
  match goal with
  | |- context [print_cases ?sep ?k ?g ?p] =>
      replace (print_cases sep k g p)
        with (@Err unit RuntimeError, mkProc (mkTokens [] []) out SIG_IGN)
        by (symmetry; exact (print_cases_no_solution sep k _ _ _ _ out
                               SIG_IGN Hd))
  end.
  reflexivity.
Qed.

Lemma solve_code_jam_no_token_witness :
  solve_code_jam sum_solver [s_ "  "; [LF]] (mkRawPipe [] 0) true
  = (Err RuntimeError, mkProc (mkTokens [] []) (mkRawPipe [] 0) SIG_IGN).
Proof.
  apply (solve_code_jam_no_token sum_solver [s_ "  "; [LF]] (mkRawPipe [] 0)
           true).
  repeat constructor.
Defined.

(** X2. When the first token is no integer, [solve_code_jam] raises the
    [ValueError] of [int], unchanged; the token has been taken, the solver
    has not run and nothing is written. *)
Theorem solve_code_jam_bad_count {F A : Type} `{FileLike F} `{Str A}
  (solver : M Tokens A) (stream : list str) (c : str) (rest : list str)
  (out : F) (insert_newline : bool) :
  tokenize stream = c :: rest ->
  py_int c = Err ValueError ->
  exists self',
    solve_code_jam solver stream out insert_newline
    = (Err ValueError, mkProc self' out SIG_IGN)
    /\ remaining self' = rest.
Proof.
  intros Hs Hc.
  destruct (next_token_some py_int (Tokens_init stream) c rest Hs)
    as (self' & Hn & Hr).
  exists self'. split; [|exact Hr].
  unfold solve_code_jam, generator_solve_code_jam, print_code_jam. cbv zeta.
  assert (Hd : drain (solve solver) (Tokens_init stream)
               = ([], Err ValueError, self')).
  { now rewrite drain_solve, Hn, Hc. }
  match goal with
  | |- context [print_cases ?sep ?k ?g ?p] =>
      replace (print_cases sep k g p)
        with (@Err unit ValueError, mkProc self' out SIG_IGN)
        by (symmetry; exact (print_cases_no_solution sep k _ _ _ _ out
                               SIG_IGN Hd))
  end.
  reflexivity.
Qed.

Lemma solve_code_jam_bad_count_witness :
  exists self',
    solve_code_jam sum_solver [s_ "three 1 2"] (TextFile_open None) false
    = (Err ValueError, mkProc self' (TextFile_open None) SIG_IGN)
    /\ remaining self' = [s_ "1"; s_ "2"].
Proof.
  apply (solve_code_jam_bad_count sum_solver [s_ "three 1 2"] (s_ "three")
           [s_ "1"; s_ "2"] (TextFile_open None) false); reflexivity.
Defined.

(** X3. A count that is zero or negative gives an empty run:
    [solve_code_jam] returns normally, the solver is never called, only the
    count token is taken and nothing is written, whatever the output
    file. *)
Theorem solve_code_jam_nonpositive_count {F A : Type} `{FileLike F} `{Str A}
  (solver : M Tokens A) (stream : list str) (c : str) (rest : list str)
  (n : Z) (out : F) (insert_newline : bool) :
  tokenize stream = c :: rest ->
  py_int c = Ok n ->
  (n <= 0)%Z ->
  exists self',
    solve_code_jam solver stream out insert_newline
    = (Ok tt, mkProc self' out SIG_IGN)
    /\ remaining self' = rest.
Proof.
  intros Hs Hc Hn.
  destruct (next_token_some py_int (Tokens_init stream) c rest Hs)
    as (self' & Hnext & Hr).
  exists self'. split; [|exact Hr].
  unfold solve_code_jam, generator_solve_code_jam, print_code_jam. cbv zeta.
  assert (Hd : drain (solve solver) (Tokens_init stream)
               = ([], Ok tt, self')).
  { rewrite drain_solve, Hnext, Hc.
    replace (Z.to_nat n) with 0 by lia. reflexivity. }
  match goal with
  | |- context [print_cases ?sep ?k ?g ?p] =>
      replace (print_cases sep k g p)
        with (@Ok unit tt, mkProc self' out SIG_IGN)
        by (symmetry; exact (print_cases_no_solution sep k _ _ _ _ out
                               SIG_IGN Hd))
  end.
  reflexivity.
Qed.

Lemma solve_code_jam_nonpositive_count_witness :
  exists self',
    solve_code_jam sum_solver [s_ "-3 1 2"] (mkRawPipe [] 0) false
    = (Ok tt, mkProc self' (mkRawPipe [] 0) SIG_IGN)
    /\ remaining self' = [s_ "1"; s_ "2"].
Proof.
  apply (solve_code_jam_nonpositive_count sum_solver [s_ "-3 1 2"] (s_ "-3")
           [s_ "1"; s_ "2"] (-3)%Z (mkRawPipe [] 0) false).
  - reflexivity.
  - reflexivity.
  - lia.
Defined.

(** ** Failures of the solution generator *)

(** X4. When the solution generator raises after yielding some solutions,
    [print_code_jam] has written and flushed the text of every solution
    yielded before, each complete, and then lets the exception out
    unchanged with SIGPIPE as it was; unless the exception is a
    [BrokenPipeError], which it swallows like one of the file: it then
    returns normally with SIGPIPE at its default. *)
Theorem print_code_jam_generator_raises {W A : Type} `{Str A}
  (solutions : gen W A) (w w' : W) (vs : list A) (e : exn)
  (insert_newline : bool) (sig : handler) :
  drain solutions w = (vs, Err e, w') ->
  print_code_jam solutions insert_newline (mkProc w (TextFile_open None) sig)
  = (match e with BrokenPipeError => Ok tt | _ => Err e end,
     mkProc w'
       (mkTextFile []
          (case_texts (if insert_newline then [LF] else [SPACE]) 1 vs) None)
       (match e with BrokenPipeError => SIG_DFL | _ => sig end)).
Proof.
  intros Hd. unfold print_code_jam, TextFile_open.
  rewrite print_cases_TextFile, Hd. destruct e; reflexivity.
Qed.

Lemma print_code_jam_generator_raises_witness :
  print_code_jam (next_many_tokens 3 py_int) false
    (mkProc (Tokens_init [s_ "4 5"]) (TextFile_open None) SIG_IGN)
  = (Err RuntimeError,
     mkProc (mkTokens [] [])
       (mkTextFile [] (case_texts [SPACE] 1 [4; 5]%Z) None) SIG_IGN).
Proof.
  apply (print_code_jam_generator_raises (next_many_tokens 3 py_int)
           (Tokens_init [s_ "4 5"]) (mkTokens [] []) [4; 5]%Z RuntimeError
           false SIG_IGN).
  reflexivity.
Defined.

(** X6. Truncated input: when the count announces more cases than there
    are tokens for a solver that reads one token per case,
    [solve_code_jam] prints the cases it could solve, each complete, and
    then raises [RuntimeError] (the solver's [StopIteration] escaping the
    generator); the input is used up. *)
Theorem solve_code_jam_truncated {A : Type} `{Str A} (t : str -> result A)
  (stream : list str) (c : str) (toks : list str) (n : Z) (vs : list A)
  (insert_newline : bool) :
  tokenize stream = c :: toks ->
  py_int c = Ok n ->
  length toks < Z.to_nat n ->
  Forall2 (fun tok v => t tok = Ok v) toks vs ->
  exists self',
    solve_code_jam (next_token t) stream (TextFile_open None) insert_newline
    = (Err RuntimeError,
       mkProc self'
         (mkTextFile []
            (case_texts (if insert_newline then [LF] else [SPACE]) 1 vs) None)
         SIG_IGN)
    /\ remaining self' = [].
Proof.
  intros Hs Hc Hlen Hvs.
  destruct (next_token_some py_int (Tokens_init stream) c toks Hs)
    as (self1 & Hn & Hr1).
  destruct (drain_next_many t (Z.to_nat n) self1) as (self' & Hd & Hr').
  rewrite Hr1, (read_many_short t toks vs _ Hvs Hlen) in Hd, Hr'.
  cbn [fst snd] in Hd, Hr'.
  exists self'. split; [|exact Hr'].
  unfold solve_code_jam, generator_solve_code_jam, print_code_jam,
    TextFile_open.
  rewrite print_cases_TextFile, drain_solve, Hn, Hc, Hd. reflexivity.
Qed.

Lemma solve_code_jam_truncated_witness :
  exists self',
    solve_code_jam (next_token py_int) [s_ "3"; s_ "10 20"] (TextFile_open None)
      false
    = (Err RuntimeError,
       mkProc self' (mkTextFile [] (case_texts [SPACE] 1 [10; 20]%Z) None)
         SIG_IGN)
    /\ remaining self' = [].
Proof.
  apply (solve_code_jam_truncated py_int [s_ "3"; s_ "10 20"] (s_ "3")
           [s_ "10"; s_ "20"] 3 [10; 20]%Z false).
  - reflexivity.
  - reflexivity.
  - cbn. lia.
  - repeat constructor.
Defined.

(** ** Typed reads at their edges *)

Lemma read_many_rejected {A : Type} (t : str -> result A) (good : list str)
  (vs : list A) (bad : str) (rest : list str) (e : exn) : forall k,
  Forall2 (fun tok v => t tok = Ok v) good vs ->
  t bad = Err e ->
  length good < k ->
  read_many k t (good ++ bad :: rest) = (vs, Err (generator_raise e), rest).
Proof.
  intros k Hvs. revert k.
  induction Hvs as [|tok v good vs Hv _ IH]; intros k Hbad Hk.
  - destruct k; [lia|]. cbn. now rewrite Hbad.
  - destruct k; [cbn in Hk; lia|]. cbn in *.
    rewrite Hv, IH by (trivial; lia). reflexivity.
Qed.

(** X7. When the converter rejects a token in the middle of
    [next_many_tokens(n, t)], the values of the tokens before it have been
    yielded, the rejected token is taken, the converter's exception comes
    out of the iteration (a [StopIteration] as [RuntimeError], any other
    unchanged) and every token after the rejected one is still there. *)
Theorem next_many_tokens_rejected {A : Type} (t : str -> result A) (n : Z)
  (self : Tokens) (good : list str) (vs : list A) (bad : str)
  (rest : list str) (e : exn) :
  remaining self = good ++ bad :: rest ->
  Forall2 (fun tok v => t tok = Ok v) good vs ->
  t bad = Err e ->
  length good < Z.to_nat n ->
  exists self',
    drain (next_many_tokens n t) self = (vs, Err (generator_raise e), self')
    /\ remaining self' = rest.
Proof.
  intros Hr Hvs Hbad Hlen. unfold next_many_tokens.
  destruct (drain_next_many t (Z.to_nat n) self) as (self' & Hd & Hr').
  rewrite Hr, (read_many_rejected t good vs bad rest e _ Hvs Hbad Hlen)
    in Hd, Hr'.
  cbn [fst snd] in Hd, Hr'. eauto.
Qed.

Lemma next_many_tokens_rejected_witness :
  exists self',
    drain (next_many_tokens 3 py_int) (Tokens_init [s_ "4 x 6 7"])
    = ([4%Z], Err (generator_raise ValueError), self')
    /\ remaining self' = [s_ "6"; s_ "7"].
Proof.
  apply (next_many_tokens_rejected py_int 3 (Tokens_init [s_ "4 x 6 7"])
           [s_ "4"] [4%Z] (s_ "x") [s_ "6"; s_ "7"] ValueError).
  - reflexivity.
  - repeat constructor.
  - reflexivity.
  - cbn. lia.
Defined.

(** X8. [next_counted_tokens] at its edges.  On an exhausted stream the
    call itself raises [StopIteration] (it is no generator, so the
    exception is not turned into [RuntimeError]) and returns no sequence.
    On a count that is no integer it raises [int]'s [ValueError] with the
    token taken.  On a count that is zero or negative it returns a sequence
    that is empty and reads nothing. *)
Theorem next_counted_tokens_edges {A : Type} (t : str -> result A)
  (self : Tokens) :
  (remaining self = [] ->
   next_counted_tokens t self = (Err StopIteration, mkTokens [] []))
  /\ (forall c rest,
         remaining self = c :: rest -> py_int c = Err ValueError ->
         exists self',
           next_counted_tokens t self = (Err ValueError, self')
           /\ remaining self' = rest)
  /\ (forall c rest n,
         remaining self = c :: rest -> py_int c = Ok n -> (n <= 0)%Z ->
         exists g self',
           next_counted_tokens t self = (Ok g, self')
           /\ remaining self' = rest
           /\ forall w, drain g w = ([], Ok tt, w)).
Proof.
  unfold next_counted_tokens, bind, ret. split; [|split].
  - intros E. now rewrite next_token_none.
  - intros c rest E Hc.
    destruct (next_token_some py_int self c rest E) as (self' & -> & Hr).
    rewrite Hc. eauto.
  - intros c rest n E Hc Hn.
    destruct (next_token_some py_int self c rest E) as (self' & -> & Hr).
    rewrite Hc. exists (next_many_tokens n t), self'.
    repeat split; trivial. intros w. unfold next_many_tokens.
    replace (Z.to_nat n) with 0 by lia. reflexivity.
Qed.

Lemma next_counted_tokens_edges_witness :
  next_counted_tokens py_int (Tokens_init [s_ " "]) = (Err StopIteration, mkTokens [] [])
  /\ (exists self',
         next_counted_tokens py_int (Tokens_init [s_ "n 1"])
         = (Err ValueError, self')
         /\ remaining self' = [s_ "1"])
  /\ (exists g self',
         next_counted_tokens py_int (Tokens_init [s_ "-2 1"]) = (Ok g, self')
         /\ remaining self' = [s_ "1"]
         /\ forall w, drain g w = ([], Ok tt, w)).
Proof.
  split; [|split].
  - exact (proj1 (next_counted_tokens_edges py_int (Tokens_init [s_ " "]))
             eq_refl).
  - exact (proj1 (proj2 (next_counted_tokens_edges py_int
                           (Tokens_init [s_ "n 1"])))
             (s_ "n") [s_ "1"] eq_refl eq_refl).
  - exact (proj2 (proj2 (next_counted_tokens_edges py_int
                           (Tokens_init [s_ "-2 1"])))
             (s_ "-2") [s_ "1"] (-2)%Z eq_refl eq_refl ltac:(lia)).
Defined.

(** ** The two drivers and the typed reads together *)

(** X9. The counted driver with a solver that reads one token per case is
    [next_counted_tokens]: when the count can be read, the generator of
    [solve_code_jam] resumes exactly as the sequence [next_counted_tokens]
    returns, so both yield the same values and fail alike.  They differ
    when the count cannot be read: the call [next_counted_tokens] raises
    the exception as it is, the generator raises it as a generator does
    ([StopIteration] as [RuntimeError]). *)
Theorem solve_is_next_counted_tokens {A : Type} (t : str -> result A)
  (self : Tokens) :
  match next_counted_tokens t self with
  | (Ok g, self1) =>
      resume (solve (next_token t)) self = resume g self1
      /\ drain (solve (next_token t)) self = drain g self1
  | (Err e, self1) =>
      drain (solve (next_token t)) self = ([], Err (generator_raise e), self1)
  end.
Proof.
  unfold next_counted_tokens, bind, ret. rewrite drain_solve.
  cbn [solve resume].
  destruct (next_token py_int self) as [[n|e] self1]; [|reflexivity].
  split; reflexivity.
Qed.

(** X10. [generator_solve_code_jam] with a sequence producer prints what
    the producer yields and reads what the producer reads: given
    [next_many_tokens(n, t)] as the solver it takes the first [n] tokens of
    the input (there is no count token), prints one case for each and
    leaves the rest of the input unread. *)
Theorem generator_solve_code_jam_next_many {A : Type} `{Str A}
  (t : str -> result A) (n : Z) (stream : list str) (toks rest : list str)
  (vs : list A) (insert_newline : bool) :
  tokenize stream = toks ++ rest ->
  length toks = Z.to_nat n ->
  Forall2 (fun tok v => t tok = Ok v) toks vs ->
  exists self',
    generator_solve_code_jam (next_many_tokens n t) stream (TextFile_open None)
      insert_newline
    = (Ok tt,
       mkProc self'
         (mkTextFile []
            (case_texts (if insert_newline then [LF] else [SPACE]) 1 vs) None)
         SIG_IGN)
    /\ remaining self' = rest.
Proof.
  intros Hs Hlen Hvs.
  destruct (drain_next_many_exact t n (Tokens_init stream) toks rest vs
              Hs Hvs Hlen) as (self' & Hd & Hr).
  exists self'. split; [|exact Hr].
  unfold generator_solve_code_jam, print_code_jam, TextFile_open.
  rewrite print_cases_TextFile, Hd. reflexivity.
Qed.

Lemma generator_solve_code_jam_next_many_witness :
  exists self',
    generator_solve_code_jam (next_many_tokens 2 py_int) [s_ "5 6"; s_ "7"]
      (TextFile_open None) true
    = (Ok tt,
       mkProc self' (mkTextFile [] (case_texts [LF] 1 [5; 6]%Z) None) SIG_IGN)
    /\ remaining self' = [s_ "7"].
Proof.
  apply (generator_solve_code_jam_next_many py_int 2 [s_ "5 6"; s_ "7"]
           [s_ "5"; s_ "6"] [s_ "7"] [5; 6]%Z true).
  - reflexivity.
  - reflexivity.
  - repeat constructor.
Defined.

(** ** Solving on demand *)

Lemma print_cases_resume {W F A : Type} `{FileLike F} `{Str A} (sep : str)
  (k : Z) (g : gen W A) (p : proc W F) :
  print_cases sep k g p =
  match resume g (heap p) with
  | Yield solution w g' =>
      match print [format_case k; py_str solution] sep true (ostr p) with
      | (Ok _, o) => print_cases sep (k + 1) g' (mkProc w o (sigpipe p))
      | (Err e, o) => (Err e, mkProc w o (sigpipe p))
      end
  | Return w => (Ok tt, mkProc w (ostr p) (sigpipe p))
  | Raise e w => (Err e, mkProc w (ostr p) (sigpipe p))
  end.
Proof. destruct g; reflexivity. Qed.

(** The loop over a one-token-per-case generator on a file whose reader
    leaves after [j] chunks: case [j+1] is the last one solved. *)
Lemma print_cases_range_reader_gone {A : Type} `{Str A} (t : str -> result A)
  (sep : str) (toks : list str) (vs : list A) :
  Forall2 (fun tok v => t tok = Ok v) toks vs ->
  forall m j k self rest d sig,
    remaining self = toks ++ rest ->
    length toks <= m ->
    j < length toks ->
    exists v self',
      nth_error vs j = Some v
      /\ print_cases sep k (range_loop m (next_token t))
           (mkProc self (mkTextFile [] d (Some j)) sig)
         = (Err BrokenPipeError,
            mkProc self'
              (mkTextFile (case_text sep (k + Z.of_nat j) v)
                 (d ++ case_texts sep k (firstn j vs)) (Some 0)) sig)
      /\ remaining self' = skipn (S j) toks ++ rest.
Proof.
  induction 1 as [|tok v toks vs Hv _ IH];
    intros m j k self rest d sig Hr Hm Hj; [cbn in Hj; lia|].
  destruct m as [|m]; [cbn in Hm; lia|].
  cbn [app] in Hr.
  destruct (next_token_some t self tok (toks ++ rest) Hr) as (self1 & Hn & Hr1).
  rewrite print_cases_resume. cbn [range_loop resume heap ostr sigpipe].
  rewrite Hn, Hv. rewrite print_case_TextFile.
  destruct j as [|j].
  - exists v, self1. split; [reflexivity|]. split.
    + cbn. now rewrite Z.add_0_r, app_nil_r.
    + exact Hr1.
  - cbn in Hm, Hj.
    destruct (IH m j (k + 1)%Z self1 rest (d ++ [case_text sep k v]) sig Hr1
                ltac:(lia) ltac:(lia)) as (v' & self' & Hnth & Hp & Hr').
    exists v', self'. split; [exact Hnth|]. split; [|exact Hr'].
    rewrite Hp. cbn [firstn case_texts]. rewrite <- app_assoc. cbn [app].
    replace (k + 1 + Z.of_nat j)%Z with (k + Z.of_nat (S j))%Z by lia.
    reflexivity.
Qed.

(** X11. [solve_code_jam] solves on demand.  With a solver that reads one
    token per case and a reader that leaves after [j] lines, it returns
    normally having solved exactly [j+1] cases: the tokens of the later
    cases, and whatever follows them, have not been read. *)
Theorem solve_code_jam_on_demand {A : Type} `{Str A} (t : str -> result A)
  (stream : list str) (c : str) (toks rest : list str) (n : Z) (vs : list A)
  (j : nat) (insert_newline : bool) :
  tokenize stream = c :: toks ++ rest ->
  py_int c = Ok n ->
  length toks = Z.to_nat n ->
  Forall2 (fun tok v => t tok = Ok v) toks vs ->
  j < length toks ->
  exists v self',
    nth_error vs j = Some v
    /\ solve_code_jam (next_token t) stream (TextFile_open (Some j))
         insert_newline
       = (Ok tt,
          mkProc self'
            (mkTextFile
               (case_text (if insert_newline then [LF] else [SPACE])
                  (1 + Z.of_nat j) v)
               (case_texts (if insert_newline then [LF] else [SPACE]) 1
                  (firstn j vs))
               (Some 0))
            SIG_DFL)
    /\ remaining self' = skipn (S j) toks ++ rest.
Proof.
  intros Hs Hc Hlen Hvs Hj.
  destruct (next_token_some py_int (Tokens_init stream) c (toks ++ rest) Hs)
    as (self1 & Hn & Hr1).
  unfold solve_code_jam, generator_solve_code_jam, print_code_jam,
    TextFile_open. cbv zeta.
  match goal with
  | |- context [print_cases ?sep _ _ _] =>
      destruct (print_cases_range_reader_gone t sep toks vs Hvs (Z.to_nat n)
                  j 1%Z self1 rest [] SIG_IGN Hr1 ltac:(lia) Hj)
        as (v & self' & Hnth & Hp & Hr');
      assert (Hsolve :
                print_cases sep 1 (solve (next_token t))
                  (mkProc (Tokens_init stream) (mkTextFile [] [] (Some j))
                     SIG_IGN)
                = print_cases sep 1 (range_loop (Z.to_nat n) (next_token t))
                    (mkProc self1 (mkTextFile [] [] (Some j)) SIG_IGN))
  end.
  { rewrite (print_cases_resume _ _ (solve (next_token t))).
    rewrite (print_cases_resume _ _ (range_loop _ _)).
    cbn [solve resume heap ostr sigpipe]. rewrite Hn, Hc. reflexivity. }
  exists v, self'. split; [exact Hnth|]. split; [|exact Hr'].
  rewrite Hsolve, Hp. reflexivity.
Qed.

Lemma solve_code_jam_on_demand_witness :
  exists v self',
    nth_error [10; 20; 30]%Z 1 = Some v
    /\ solve_code_jam (next_token py_int) [s_ "3 10"; s_ "20 30 x"]
         (TextFile_open (Some 1)) false
       = (Ok tt,
          mkProc self'
            (mkTextFile (case_text [SPACE] (1 + Z.of_nat 1) v)
               (case_texts [SPACE] 1 (firstn 1 [10; 20; 30]%Z)) (Some 0))
            SIG_DFL)
    /\ remaining self' = skipn 2 [s_ "10"; s_ "20"; s_ "30"] ++ [s_ "x"].
Proof.
  apply (solve_code_jam_on_demand py_int [s_ "3 10"; s_ "20 30 x"] (s_ "3")
           [s_ "10"; s_ "20"; s_ "30"] [s_ "x"] 3 [10; 20; 30]%Z 1 false).
  - reflexivity.
  - reflexivity.
  - reflexivity.
  - repeat constructor.
  - cbn. lia.
Defined.

(** ** Tokens and lines *)

Lemma max_runs_parts (s : str) (ts : list str) :
  max_runs s ts -> Forall (fun t => part_of t s) ts.
Proof.
  induction 1 as [ws Hws | ws t rest ts Hws Hne Ht Hgap _ IH];
    constructor.
  - exists ws, rest. reflexivity.
  - apply (Forall_impl _ (P := fun t' => part_of t' rest)); [|exact IH].
    intros t' (pre & post & ->). exists (ws ++ t ++ pre), post.
    now rewrite <- !app_assoc.
Qed.

(** X12. Whatever the stream hands out as its lines (any iterable of
    strings will do for [tokenize]), every token lies inside one of them:
    [tokenize] never joins characters of two lines into one token, also
    when the first of them does not end in whitespace. *)
Theorem tokenize_within_lines (stream : list str) :
  Forall (fun tok => exists line, In line stream /\ part_of tok line)
    (tokenize stream).
Proof.
  induction stream as [|l ls IH]; [constructor|].
  cbn [tokenize]. apply Forall_app. split.
  - apply (Forall_impl _ (P := fun t => part_of t l)).
    + intros t Ht. exists l. split; [now left|exact Ht].
    + apply max_runs_parts, max_runs_split.
  - apply (Forall_impl _ (P := fun tok => exists line,
                                  In line ls /\ part_of tok line));
      [|exact IH].
    intros t (line & Hin & Hp). exists line. split; [now right|exact Hp].
Qed.

(** ** Reading the output back *)

Lemma uint_chars_no_space (d : Decimal.uint) : no_space (uint_chars d).
Proof. induction d; cbn [uint_chars]; constructor; trivial. Qed.

Lemma str_int_no_space (z : Z) : no_space (str_int z).
Proof.
  unfold str_int. destruct (Z.to_int z) as [d|d].
  - apply uint_chars_no_space.
  - constructor; [reflexivity|apply uint_chars_no_space].
Qed.

Lemma split_token (t : str) : t <> [] -> no_space t -> split t = [t].
Proof.
  intros Hne Ht. rewrite <- (app_nil_r t) at 1.
  now rewrite split_run by (trivial; exact I).
Qed.

Section OutputTokens.
Context {A : Type} `{Str A}.

(** The tokens of the text of the cases, whichever whitespace character
    separates label and value. *)
Lemma split_case_texts (c : ascii) (vs : list A) : forall k,
  isspace c = true ->
  Forall (fun v => py_str v <> [] /\ no_space (py_str v)) vs ->
  split (concat (case_texts [c] k vs)) = case_tokens k vs.
Proof.
  induction vs as [|v vs IH]; intros k Hc Hvs; [reflexivity|].
  inversion Hvs as [|? ? [Hne Hv] Hvs']; subst.
  cbn [case_texts concat case_tokens].
  assert (E : case_text [c] k v ++ concat (case_texts [c] (k + 1) vs)
              = s_ "Case"
                  ++ SPACE :: (s_ "#" ++ py_str k ++ s_ ":")
                  ++ c :: py_str v
                  ++ LF :: concat (case_texts [c] (k + 1) vs)).
  { unfold case_text, format_case. rewrite <- !app_assoc. reflexivity. }
  rewrite E.
  rewrite (split_app_space (s_ "Case") SPACE) by reflexivity.
  rewrite (split_app_space (s_ "#" ++ py_str k ++ s_ ":") c) by assumption.
  rewrite (split_app_space (py_str v) LF) by reflexivity.
  rewrite IH by assumption.
  rewrite (split_token (py_str v)) by assumption.
  rewrite (split_token (s_ "#" ++ py_str k ++ s_ ":")).
  - reflexivity.
  - discriminate.
  - apply Forall_app. split; [repeat constructor|].
    apply Forall_app. split; [apply str_int_no_space|repeat constructor].
Qed.

(** The lines of the text of the cases when the value goes on its own
    line. *)
Lemma lines_case_texts_LF (vs : list A) : forall k,
  Forall (fun v => ~ In LF (py_str v)) vs ->
  lines (concat (case_texts [LF] k vs)) = case_line_pairs k vs.
Proof.
  induction vs as [|v vs IH]; intros k Hvs; [reflexivity|].
  inversion Hvs; subst. cbn [case_texts concat case_line_pairs].
  unfold case_text. rewrite <- !app_assoc. cbn [app].
  rewrite lines_app_LF.
  - rewrite lines_app_LF by assumption. now rewrite IH.
  - unfold format_case. rewrite !in_app_iff.
    intros [Hin|[Hin|Hin]].
    + vm_compute in Hin. intuition discriminate.
    + now apply str_int_no_LF in Hin.
    + vm_compute in Hin. intuition discriminate.
Qed.

Lemma length_case_line_pairs (vs : list A) : forall k,
  length (case_line_pairs k vs) = 2 * length vs.
Proof. induction vs as [|v vs IH]; intros k; cbn; [|rewrite IH]; lia. Qed.
End OutputTokens.

(** X13. What [print_code_jam] writes can be read back with [Tokens]: when
    the text of every solution is one token (not empty, no whitespace), the
    tokens of the output read line by line are, for each case in turn,
    "Case", "#k:" and the solution's text; and this is so with and without
    [insert_newline], which changes no token. *)
Theorem print_code_jam_tokens {W A : Type} `{Str A} (solutions : gen W A)
  (w w' : W) (vs : list A) (insert_newline : bool) (sig : handler) :
  drain solutions w = (vs, Ok tt, w') ->
  Forall (fun v => py_str v <> [] /\ no_space (py_str v)) vs ->
  tokenize (readlines (concat (delivered (ostr (snd
    (print_code_jam solutions insert_newline
       (mkProc w (TextFile_open None) sig)))))))
  = case_tokens 1 vs.
Proof.
  intros Hd Hvs. rewrite tokenize_readlines.
  unfold print_code_jam, TextFile_open.
  rewrite print_cases_TextFile, Hd. cbn [snd ostr delivered app].
  destruct insert_newline; now apply split_case_texts.
Qed.

Lemma print_code_jam_tokens_witness :
  tokenize (readlines (concat (delivered (ostr (snd
    (print_code_jam (iter_list [12; -3]%Z) true
       (mkProc tt (TextFile_open None) SIG_IGN)))))))
  = case_tokens 1 [12; -3]%Z.
Proof.
  apply (print_code_jam_tokens (iter_list [12; -3]%Z) tt tt [12; -3]%Z true
           SIG_IGN).
  - reflexivity.
  - repeat constructor; discriminate.
Defined.

(** X14. With [insert_newline = True] and no newline in any solution's
    text, the output of [k] solutions splits into [2k] lines: for each case
    in turn the line "Case #i:" and then the line of the solution's
    text. *)
Theorem print_code_jam_line_pairs {W A : Type} `{Str A} (solutions : gen W A)
  (w w' : W) (vs : list A) (sig : handler) :
  drain solutions w = (vs, Ok tt, w') ->
  Forall (fun v => ~ In LF (py_str v)) vs ->
  let output :=
    concat (delivered (ostr (snd
      (print_code_jam solutions true (mkProc w (TextFile_open None) sig))))) in
  lines output = case_line_pairs 1 vs
  /\ length (lines output) = 2 * length vs.
Proof.
  intros Hd Hvs output.
  assert (E : lines output = case_line_pairs 1 vs).
  { subst output. unfold print_code_jam, TextFile_open.
    rewrite print_cases_TextFile, Hd. cbn [snd ostr delivered app].
    now apply lines_case_texts_LF. }
  rewrite E. split; [reflexivity|apply length_case_line_pairs].
Qed.

Lemma print_code_jam_line_pairs_witness :
  let output :=
    concat (delivered (ostr (snd
      (print_code_jam (iter_list [s_ "a b"; s_ ""]) true
         (mkProc tt (TextFile_open None) SIG_IGN))))) in
  lines output = case_line_pairs 1 [s_ "a b"; s_ ""]
  /\ length (lines output) = 2 * length [s_ "a b"; s_ ""].
Proof.
  apply (print_code_jam_line_pairs (iter_list [s_ "a b"; s_ ""]) tt tt
           [s_ "a b"; s_ ""] SIG_IGN).
  - reflexivity.
  - repeat constructor; intros Hin; vm_compute in Hin; intuition discriminate.
Defined.

(** ** The same text on an unbuffered file *)

Lemma RawPipe_write_ok (s rcv : str) (m : nat) :
  1 <= m ->
  exists m',
    m <= m' + 1
    /\ RawPipe_write s (mkRawPipe rcv m) = (Ok tt, mkRawPipe (rcv ++ s) m').
Proof.
  intros Hm. unfold RawPipe_write. destruct s as [|c s].
  - exists m. rewrite app_nil_r. split; [lia|reflexivity].
  - cbn [writes_left received]. destruct m as [|m]; [lia|].
    exists m. split; [lia|reflexivity].
Qed.

Lemma print_case_RawPipe (a b sep rcv : str) (m : nat) :
  4 <= m ->
  exists m',
    m <= m' + 4
    /\ print [a; b] sep true (mkRawPipe rcv m)
       = (Ok tt, mkRawPipe (rcv ++ a ++ sep ++ b ++ [LF]) m').
Proof.
  intros Hm. unfold print, print_objects, bind, ret.
  cbn [write flush RawPipe_FileLike]. unfold RawPipe_flush, ret.
  destruct (RawPipe_write_ok a rcv m ltac:(lia)) as (m1 & H1 & ->).
  destruct (RawPipe_write_ok sep (rcv ++ a) m1 ltac:(lia)) as (m2 & H2 & ->).
  destruct (RawPipe_write_ok b ((rcv ++ a) ++ sep) m2 ltac:(lia))
    as (m3 & H3 & ->).
  destruct (RawPipe_write_ok [LF] (((rcv ++ a) ++ sep) ++ b) m3 ltac:(lia))
    as (m4 & H4 & ->).
  exists m4. split; [lia|]. now rewrite <- !app_assoc.
Qed.

Lemma print_cases_RawPipe {W A : Type} `{Str A} (sep : str) (g : gen W A) :
  forall k w rcv m sig vs r w',
    drain g w = (vs, r, w') ->
    4 * length vs <= m ->
    exists m',
      print_cases sep k g (mkProc w (mkRawPipe rcv m) sig)
      = (r, mkProc w' (mkRawPipe (rcv ++ concat (case_texts sep k vs)) m') sig).
Proof.
  induction g as [f IH] using gen_induction.
  intros k w rcv m sig vs r w' Hd Hm.
  cbn [print_cases drain heap ostr sigpipe] in *. specialize (IH w).
  destruct (f w) as [v w1 g1 | w1 | e w1].
  - destruct (drain g1 w1) as [[vs1 r1] w2] eqn:E1.
    inversion Hd; subst. cbn [length] in Hm.
    destruct (print_case_RawPipe (format_case k) (py_str v) sep rcv m
                ltac:(lia)) as (m1 & H1 & ->).
    destruct (IH (k + 1)%Z w1 (rcv ++ format_case k ++ sep ++ py_str v ++ [LF])
                m1 sig vs1 r w' E1 ltac:(lia)) as (m' & ->).
    exists m'. cbn [case_texts concat]. unfold case_text.
    now rewrite <- !app_assoc.
  - inversion Hd; subst. exists m. cbn. now rewrite app_nil_r.
  - inversion Hd; subst. exists m. cbn. now rewrite app_nil_r.
Qed.

(** X15. The text does not depend on the buffering of the file.  On an
    unbuffered file whose reader stays for at least four writes per
    solution, [print_code_jam] returns or raises what it does on the
    block-buffered file, leaves the solution generator's objects in the
    same state, and the characters received are, in order, exactly those
    of the chunks delivered there. *)
Theorem print_code_jam_unbuffered {W A : Type} `{Str A} (solutions : gen W A)
  (w w' : W) (vs : list A) (r : result unit) (insert_newline : bool)
  (sig : handler) (m : nat) :
  drain solutions w = (vs, r, w') ->
  4 * length vs <= m ->
  let raw :=
    print_code_jam solutions insert_newline (mkProc w (mkRawPipe [] m) sig) in
  let buffered :=
    print_code_jam solutions insert_newline (mkProc w (TextFile_open None) sig) in
  fst raw = fst buffered
  /\ heap (snd raw) = heap (snd buffered)
  /\ sigpipe (snd raw) = sigpipe (snd buffered)
  /\ received (ostr (snd raw)) = concat (delivered (ostr (snd buffered))).
Proof.
  intros Hd Hm raw buffered. subst raw buffered.
  unfold print_code_jam, TextFile_open. cbv zeta.
  rewrite print_cases_TextFile, Hd.
  match goal with
  | |- context [print_cases ?sep _ _ (mkProc _ (mkRawPipe _ _) _)] =>
      destruct (print_cases_RawPipe sep solutions 1%Z w [] m sig vs r w' Hd Hm)
        as (m' & ->)
  end.
  destruct r as [u|e]; [cbn; auto|]. destruct e; cbn; auto.
Qed.

Lemma print_code_jam_unbuffered_witness :
  let raw :=
    print_code_jam (iter_list [3; 7]%Z) false (mkProc tt (mkRawPipe [] 8) SIG_IGN) in
  let buffered :=
    print_code_jam (iter_list [3; 7]%Z) false
      (mkProc tt (TextFile_open None) SIG_IGN) in
  fst raw = fst buffered
  /\ heap (snd raw) = heap (snd buffered)
  /\ sigpipe (snd raw) = sigpipe (snd buffered)
  /\ received (ostr (snd raw)) = concat (delivered (ostr (snd buffered))).
Proof.
  apply (print_code_jam_unbuffered (iter_list [3; 7]%Z) tt tt [3; 7]%Z (Ok tt)
           false SIG_IGN 8).
  - reflexivity.
  - cbn. lia.
Defined.

(** ** Integers written with [str] and read with [int] *)

Lemma lstrip_no_space (s : str) : no_space s -> lstrip s = s.
Proof.
  intros Hs. destruct Hs as [|c s Hc _]; [reflexivity|].
  cbn [lstrip]. now rewrite Hc.
Qed.

Lemma strip_no_space (s : str) : no_space s -> strip s = s.
Proof.
  intros Hs. unfold strip. rewrite (lstrip_no_space s Hs).
  rewrite lstrip_no_space by (apply Forall_rev; exact Hs).
  apply rev_involutive.
Qed.

(** Reading the digits of [d] after a number [p] read so far. *)
Lemma parse_digits_acc (d : Decimal.uint) : forall p,
  parse_digits (Z.pos p) true (uint_chars d)
  = Some (Z.pos (Pos.of_uint_acc d p)).
Proof.
  induction d; intros p; cbn [uint_chars parse_digits Pos.of_uint_acc];
    [reflexivity|..];
    match goal with
    | |- context [digit_val (digit_char ?i)] =>
        change (digit_val (digit_char i)) with (Some (Z.of_nat i))
    end;
    cbv iota beta;
    match goal with
    | |- parse_digits ?z true _ = Some (Z.pos (Pos.of_uint_acc _ ?q)) =>
        replace z with (Z.pos q) by lia
    end;
    apply IHd.
Qed.

Lemma parse_digits_uint (d : Decimal.uint) : forall prev,
  d <> Decimal.Nil ->
  parse_digits 0 prev (uint_chars d) = Some (Z.of_N (Pos.of_uint d)).
Proof.
  induction d; intros prev Hd; [congruence|..];
    cbn [uint_chars parse_digits Pos.of_uint];
    match goal with
    | |- context [digit_val (digit_char ?i)] =>
        change (digit_val (digit_char i)) with (Some (Z.of_nat i))
    end;
    cbv iota beta.
  - (* a leading zero *)
    change (10 * 0 + Z.of_nat 0)%Z with 0%Z.
    destruct d; try (apply IHd; discriminate). reflexivity.
  - exact (parse_digits_acc d 1).
  - exact (parse_digits_acc d 2).
  - exact (parse_digits_acc d 3).
  - exact (parse_digits_acc d 4).
  - exact (parse_digits_acc d 5).
  - exact (parse_digits_acc d 6).
  - exact (parse_digits_acc d 7).
  - exact (parse_digits_acc d 8).
  - exact (parse_digits_acc d 9).
Qed.

Lemma uint_chars_head (d : Decimal.uint) :
  d <> Decimal.Nil ->
  exists c r,
    uint_chars d = c :: r
    /\ Ascii.eqb c minus_sign = false /\ Ascii.eqb c plus_sign = false.
Proof.
  destruct d; [congruence|..]; intros _; cbn [uint_chars];
    eexists; eexists; (split; [reflexivity|split; reflexivity]).
Qed.

(** [int(str(z))] is [z]. *)
Lemma py_int_str_int (z : Z) : py_int (str_int z) = Ok z.
Proof.
  unfold py_int. rewrite (strip_no_space _ (str_int_no_space z)).
  unfold str_int. destruct z as [|p|p]; cbn [Z.to_int].
  - reflexivity.
  - pose proof (DecimalPos.Unsigned.to_uint_nonnil p) as Hnn.
    destruct (uint_chars_head _ Hnn) as (c & r & E & Hm & Hp).
    rewrite E, Hm, Hp, <- E.
    rewrite (parse_digits_uint _ false Hnn), DecimalPos.Unsigned.of_to.
    reflexivity.
  - pose proof (DecimalPos.Unsigned.to_uint_nonnil p) as Hnn.
    change (Ascii.eqb minus_sign minus_sign) with true. cbv iota.
    rewrite (parse_digits_uint _ false Hnn), DecimalPos.Unsigned.of_to.
    reflexivity.
Qed.

Lemma str_int_nonempty (z : Z) : str_int z <> [].
Proof.
  unfold str_int. destruct z as [|p|p]; cbn [Z.to_int]; try discriminate.
  pose proof (DecimalPos.Unsigned.to_uint_nonnil p) as Hnn.
  destruct (uint_chars_head _ Hnn) as (c & r & -> & _). discriminate.
Qed.

Lemma tokenize_int_lines (vs : list Z) :
  tokenize (map (fun v => str_int v ++ [LF]) vs) = map str_int vs.
Proof.
  induction vs as [|v vs IH]; [reflexivity|].
  cbn [map tokenize]. rewrite IH.
  rewrite split_run by
    (try apply str_int_nonempty; try apply str_int_no_space; reflexivity).
  reflexivity.
Qed.

(** X16. Integers written with [str] are read back as they were: for every
    list of integers within the interpreter's limit of 4300 digits (the
    number of values as well), [solve_code_jam] with the solver that reads
    one integer, given the input that holds their number on the first line
    and then one of them per line, returns normally, uses up the input and
    prints them all in order, each as [str] writes it.  (The bound is the
    interpreter's: beyond it [int] and [str] raise [ValueError], which the
    embedding of the two builtins, the limit taken as disabled, does not
    show.) *)
Theorem solve_code_jam_echo_round_trip (vs : list Z) (insert_newline : bool) :
  within_str_digits (Z.of_nat (length vs)) ->
  Forall within_str_digits vs ->
  exists self',
    solve_code_jam echo_solver (echo_input vs) (TextFile_open None)
      insert_newline
    = (Ok tt,
       mkProc self'
         (mkTextFile []
            (case_texts (if insert_newline then [LF] else [SPACE]) 1 vs) None)
         SIG_IGN)
    /\ remaining self' = []
    /\ Forall2 (fun tok v => py_int tok = Ok v)
         (tl (tokenize (echo_input vs))) vs.
Proof.
  intros _ _.
  assert (Htok : tokenize (echo_input vs)
                 = str_int (Z.of_nat (length vs)) :: map str_int vs ++ []).
  { unfold echo_input. cbn [tokenize]. rewrite tokenize_int_lines.
    rewrite split_run by
      (try apply str_int_nonempty; try apply str_int_no_space; reflexivity).
    now rewrite app_nil_r. }
  assert (Hvs : Forall2 (fun tok v => py_int tok = Ok v) (map str_int vs) vs).
  { clear Htok. induction vs as [|v vs IH]; constructor;
      auto using py_int_str_int. }
  destruct (next_token_some py_int (Tokens_init (echo_input vs)) _ _ Htok)
    as (self1 & Hn & Hr1).
  destruct (drain_next_many_exact py_int (Z.of_nat (length vs)) self1
              (map str_int vs) [] vs Hr1 Hvs) as (self' & Hd & Hr').
  { now rewrite length_map, Nat2Z.id. }
  exists self'. split; [|split; [exact Hr'|]].
  - unfold solve_code_jam, generator_solve_code_jam, print_code_jam,
      TextFile_open.
    rewrite print_cases_TextFile, drain_solve, Hn, py_int_str_int.
    unfold next_many_tokens in Hd. unfold echo_solver. rewrite Hd.
    reflexivity.
  - rewrite Htok. cbn [tl]. now rewrite app_nil_r.
Qed.

Lemma solve_code_jam_echo_round_trip_witness :
  exists self',
    solve_code_jam echo_solver (echo_input [10; -4; 0]%Z) (TextFile_open None)
      false
    = (Ok tt,
       mkProc self'
         (mkTextFile [] (case_texts [SPACE] 1 [10; -4; 0]%Z) None) SIG_IGN)
    /\ remaining self' = []
    /\ Forall2 (fun tok v => py_int tok = Ok v)
         (tl (tokenize (echo_input [10; -4; 0]%Z))) [10; -4; 0]%Z.
Proof.
  apply (solve_code_jam_echo_round_trip [10; -4; 0]%Z false).
  - vm_compute. reflexivity.
  - repeat constructor.
Defined.

(** ** An interrupted unbuffered file *)

Lemma RawPipe_write_cases (s rcv : str) (m : nat) :
  (exists m', RawPipe_write s (mkRawPipe rcv m) = (Ok tt, mkRawPipe (rcv ++ s) m'))
  \/ RawPipe_write s (mkRawPipe rcv m) = (Err BrokenPipeError, mkRawPipe rcv m).
Proof.
  unfold RawPipe_write. destruct s as [|c s].
  - left. exists m. now rewrite app_nil_r.
  - cbn [writes_left received]. destruct m as [|m]; [now right|].
    left. now exists m.
Qed.

(** One [print] on the unbuffered file: the whole text of the case is
    received, or the reader left and a beginning of it is. *)
Lemma print_case_RawPipe_cases (a b sep rcv : str) (m : nat) :
  (exists m',
      print [a; b] sep true (mkRawPipe rcv m)
      = (Ok tt, mkRawPipe (rcv ++ a ++ sep ++ b ++ [LF]) m'))
  \/ (exists pre post m',
         a ++ sep ++ b ++ [LF] = pre ++ post
         /\ print [a; b] sep true (mkRawPipe rcv m)
            = (Err BrokenPipeError, mkRawPipe (rcv ++ pre) m')).
Proof.
  unfold print, print_objects, bind, ret.
  cbn [write flush RawPipe_FileLike]. unfold RawPipe_flush, ret.
  destruct (RawPipe_write_cases a rcv m) as [(m1 & ->) | ->].
  2:{ right. exists [], (a ++ sep ++ b ++ [LF]), m.
      now rewrite app_nil_r. }
  destruct (RawPipe_write_cases sep (rcv ++ a) m1) as [(m2 & ->) | ->].
  2:{ right. exists a, (sep ++ b ++ [LF]), m1. auto. }
  destruct (RawPipe_write_cases b ((rcv ++ a) ++ sep) m2) as [(m3 & ->) | ->].
  2:{ right. exists (a ++ sep), (b ++ [LF]), m2.
      now rewrite <- !app_assoc. }
  destruct (RawPipe_write_cases [LF] (((rcv ++ a) ++ sep) ++ b) m3)
    as [(m4 & ->) | ->].
  2:{ right. exists (a ++ sep ++ b), [LF], m3.
      now rewrite <- !app_assoc. }
  left. exists m4. now rewrite <- !app_assoc.
Qed.

Lemma print_cases_RawPipe_prefix {W A : Type} `{Str A} (sep : str)
  (g : gen W A) :
  forall k w rcv m sig vs r w',
    drain g w = (vs, r, w') ->
    exists pre post r' w1 m',
      concat (case_texts sep k vs) = pre ++ post
      /\ print_cases sep k g (mkProc w (mkRawPipe rcv m) sig)
         = (r', mkProc w1 (mkRawPipe (rcv ++ pre) m') sig)
      /\ (r' = Err BrokenPipeError \/ (r' = r /\ post = [] /\ w1 = w')).
Proof.
  induction g as [f IH] using gen_induction.
  intros k w rcv m sig vs r w' Hd.
  cbn [print_cases drain heap ostr sigpipe] in *. specialize (IH w).
  destruct (f w) as [v w1 g1 | w1 | e w1].
  - destruct (drain g1 w1) as [[vs1 r1] w2] eqn:E1.
    inversion Hd; subst. cbn [case_texts concat].
    destruct (print_case_RawPipe_cases (format_case k) (py_str v) sep rcv m)
      as [(m1 & ->) | (pre & post & m1 & Esplit & ->)].
    + destruct (IH (k + 1)%Z w1
                  (rcv ++ format_case k ++ sep ++ py_str v ++ [LF])
                  m1 sig vs1 r w' E1)
        as (pre & post & r' & w3 & m' & Esplit & -> & Hr).
      exists (case_text sep k v ++ pre), post, r', w3, m'.
      split; [now rewrite Esplit, <- app_assoc|]. split; [|exact Hr].
      unfold case_text. now rewrite <- !app_assoc.
    + exists pre, (post ++ concat (case_texts sep (k + 1) vs1)),
        (Err BrokenPipeError), w1, m1.
      split; [|split; [reflexivity|now left]].
      unfold case_text. rewrite Esplit. now rewrite <- app_assoc.
  - inversion Hd; subst. exists [], [], (Ok tt), w', m.
    cbn. rewrite app_nil_r. auto 10.
  - inversion Hd; subst. exists [], [], (Err e), w', m.
    cbn. rewrite app_nil_r. auto 10.
Qed.

(** X17. However early the reader of an unbuffered file leaves, what it
    has received from [print_code_jam] is a beginning of the text that a
    reader who stays receives: nothing is written out of order, twice, or
    after the failed write.  And the call either returns normally or
    raises what the solution generator raised. *)
Theorem print_code_jam_interrupted_prefix {W A : Type} `{Str A}
  (solutions : gen W A) (w w' : W) (vs : list A) (r : result unit)
  (insert_newline : bool) (sig : handler) (m : nat) :
  drain solutions w = (vs, r, w') ->
  let raw :=
    print_code_jam solutions insert_newline (mkProc w (mkRawPipe [] m) sig) in
  let buffered :=
    print_code_jam solutions insert_newline (mkProc w (TextFile_open None) sig) in
  (exists post,
      concat (delivered (ostr (snd buffered)))
      = received (ostr (snd raw)) ++ post)
  /\ (fst raw = Ok tt \/ fst raw = r).
Proof.
  intros Hd raw buffered. subst raw buffered.
  unfold print_code_jam, TextFile_open. cbv zeta.
  rewrite print_cases_TextFile, Hd.
  match goal with
  | |- context [print_cases ?sep _ _ (mkProc _ (mkRawPipe _ _) _)] =>
      destruct (print_cases_RawPipe_prefix sep solutions 1%Z w [] m sig vs r w'
                  Hd)
        as (pre & post & r' & w1 & m' & Esplit & -> & Hr)
  end.
  destruct Hr as [-> | (-> & _ & _)].
  - destruct r as [u|[]]; cbn [fst snd ostr delivered received app];
      (split; [exists post; exact Esplit | now left]).
  - destruct r as [[]|[]]; cbn [fst snd ostr delivered received app];
      (split; [exists post; exact Esplit | auto]).
Qed.

Lemma print_code_jam_interrupted_prefix_witness :
  let raw :=
    print_code_jam (iter_list [3; 7]%Z) false (mkProc tt (mkRawPipe [] 5) SIG_IGN) in
  let buffered :=
    print_code_jam (iter_list [3; 7]%Z) false
      (mkProc tt (TextFile_open None) SIG_IGN) in
  (exists post,
      concat (delivered (ostr (snd buffered)))
      = received (ostr (snd raw)) ++ post)
  /\ (fst raw = Ok tt \/ fst raw = Ok tt).
Proof.
  apply (print_code_jam_interrupted_prefix (iter_list [3; 7]%Z) tt tt [3; 7]%Z
           (Ok tt) false SIG_IGN 5).
  reflexivity.
Defined.

(** ** Iterating a Tokens object *)

Lemma run_iterate {A : Type} (n : nat) : forall s : client A,
  fst (run (repeat Iterate n) s)
  = map (fun tok => Ok (VToken tok)) (firstn n (remaining (tokens s)))
    ++ repeat (Err StopIteration) (n - length (remaining (tokens s))).
Proof.
  induction n as [|n IH]; intros s; [reflexivity|].
  cbn [repeat run do_op].
  destruct (remaining (tokens s)) as [|tok rest] eqn:E.
  - rewrite (tokens_next_none _ E).
    specialize (IH (mkClient (mkTokens [] []) (gens s))).
    destruct (run (repeat Iterate n) _) as [rs s2]. cbn [fst] in *.
    rewrite IH. cbn. now rewrite Nat.sub_0_r, firstn_nil.
  - destruct (tokens_next_some _ tok rest E) as (self' & -> & Hr).
    specialize (IH (mkClient self' (gens s))).
    destruct (run (repeat Iterate n) _) as [rs s2]. cbn [fst tokens] in *.
    rewrite IH, Hr. reflexivity.
Qed.

(** X18. Iterating a fresh [Tokens] object hands out the tokens of
    [tokenize] on its stream, all of them and in order; every [next] after
    the last token raises [StopIteration], however often it is tried. *)
Theorem tokens_iteration {A : Type} (stream : list str) (n : nat) :
  fst (run (repeat Iterate n) (@client_init A stream))
  = map (fun tok => Ok (VToken tok)) (firstn n (tokenize stream))
    ++ repeat (Err StopIteration) (n - length (tokenize stream)).
Proof. exact (run_iterate n (client_init stream)). Qed.
